(** * UZMANRAPOR_API: the SQL admission and execution gateway

    A shallow embedding of [UZMANRAPOR_API/main.py] and the properties of its
    validator ([_validate_query]), parameter adapter ([_adapt_params]), result
    encoder ([_encode_value]) and request handler ([sql]).

    Text.  A Python [str] is a sequence of code points.  The development
    works on the texts whose code points are below 256 (Latin-1): a character
    is an [ascii], read as the code point of that number.  On this range the
    tables below are those of CPython ([str.isspace], [str.lower], and the
    classes [\w], [\s] and the case-insensitive literal comparison of [re]
    for [str] patterns). *)

From Stdlib Require Import Strings.Ascii Strings.String Strings.Byte.
From Stdlib Require Import List Bool Arith NArith ZArith Lia.
Import ListNotations.

Set Implicit Arguments.

(** ** Characters and text *)

Definition text := list ascii.

Definition T (s : string) : text := list_ascii_of_string s.

Definition code (c : ascii) : N := N_of_ascii c.

Definition between (lo hi n : N) : bool := (N.leb lo n && N.leb n hi)%bool.

(** [str.isspace] on one character; also the class [\s] of [re]. *)
Definition is_space (c : ascii) : bool :=
  let n := code c in
  (between 9 13 n || between 28 32 n || N.eqb n 133 || N.eqb n 160)%bool.

(** The class [\w] of [re] on a [str]: alphanumeric or underscore. *)
Definition is_word (c : ascii) : bool :=
  let n := code c in
  (between 48 57 n || between 65 90 n || N.eqb n 95 || between 97 122 n
   || N.eqb n 170 || between 178 179 n || N.eqb n 181 || between 185 186 n
   || between 188 190 n || between 192 214 n || between 216 246 n
   || between 248 255 n)%bool.

(** [str.lower] on one character. *)
Definition lower_char (c : ascii) : ascii :=
  let n := code c in
  if (between 65 90 n || between 192 214 n || between 216 222 n)%bool
  then ascii_of_N (n + 32) else c.

Definition lower (s : text) : text := map lower_char s.

Definition text_eqb (a b : text) : bool :=
  if list_eq_dec ascii_dec a b then true else false.

Definition mem (x : text) (l : list text) : bool := existsb (text_eqb x) l.

Fixpoint dropwhile (p : ascii -> bool) (s : text) : text :=
  match s with
  | c :: s' => if p c then dropwhile p s' else s
  | [] => []
  end.

Fixpoint span (p : ascii -> bool) (s : text) : text * text :=
  match s with
  | c :: s' => if p c then let (a, b) := span p s' in (c :: a, b) else ([], s)
  | [] => ([], [])
  end.

(** [str.strip()] with no argument: white space removed at both ends. *)
Definition strip (s : text) : text :=
  rev (dropwhile is_space (rev (dropwhile is_space s))).

(** [str.split(None, 1)]: the first run of non-space characters and, when
    something other than white space follows it, the rest of the text after
    the separating white space. *)
Definition split_none_1 (s : text) : list text :=
  match dropwhile is_space s with
  | [] => []
  | s1 =>
      let (tok, r) := span (fun c => negb (is_space c)) s1 in
      match dropwhile is_space r with
      | [] => [tok]
      | r1 => [tok; r1]
      end
  end.

(** [needle in haystack] on [str]. *)
Fixpoint starts_with (p s : text) : bool :=
  match p, s with
  | [], _ => true
  | a :: p', b :: s' => if ascii_dec a b then starts_with p' s' else false
  | _ :: _, [] => false
  end.

Fixpoint contains (needle hay : text) : bool :=
  if starts_with needle hay then true
  else match hay with
       | _ :: hay' => contains needle hay'
       | [] => false
       end.

(** ** The fragment of [re] the gateway uses

    A backtracking matcher in continuation-passing style over a cursor into
    the subject: the text before the cursor, last character first, and the
    text after it.  All three patterns of the program are compiled with
    [re.IGNORECASE]. *)

Module Re.

Inductive cclass := CWord | CSpace.

Definition in_class (k : cclass) (c : ascii) : bool :=
  match k with
  | CWord => is_word c
  | CSpace => is_space c
  end.

Inductive regex :=
| Lit (s : text)              (* a run of literal characters *)
| Boundary                    (* \b *)
| Plus (k : cclass)           (* \w+ or \s+, greedy *)
| Seq (r1 r2 : regex)
| Alt (r1 r2 : regex)
| Group (n : nat) (r : regex) (* a capturing group *).

Definition groups := list (nat * text).

Record rmatch := Match {
  m_before : text;   (* the subject up to the end of the match, reversed *)
  m_after : text;    (* the rest of the subject *)
  m_groups : groups
}.

Definition word_before (bef : text) : bool :=
  match bef with c :: _ => is_word c | [] => false end.

Definition word_after (aft : text) : bool :=
  match aft with c :: _ => is_word c | [] => false end.

(** [\b]: exactly one side of the cursor is a word character. *)
Definition at_boundary (bef aft : text) : bool :=
  xorb (word_before bef) (word_after aft).

(** A literal of the pattern against a character of the subject, under
    [re.IGNORECASE]. *)
Definition ci_char (c x : ascii) : bool :=
  if ascii_dec (lower_char x) (lower_char c) then true else false.

Section Matcher.
Variable A : Type.

Definition kont := text -> text -> groups -> option A.

Fixpoint lits (s : text) (bef aft : text) (g : groups) (K : kont) : option A :=
  match s with
  | [] => K bef aft g
  | c :: s' =>
      match aft with
      | x :: aft' => if ci_char c x then lits s' (x :: bef) aft' g K else None
      | [] => None
      end
  end.

(** The greedy tail of [k+]: as many further characters as possible,
    giving one back at a time when the continuation fails. *)
Fixpoint more (k : cclass) (bef aft : text) (g : groups) (K : kont) : option A :=
  match aft with
  | x :: aft' =>
      if in_class k x then
        match more k (x :: bef) aft' g K with
        | Some a => Some a
        | None => K bef aft g
        end
      else K bef aft g
  | [] => K bef aft g
  end.

Fixpoint run (r : regex) (bef aft : text) (g : groups) (K : kont) : option A :=
  match r with
  | Lit s => lits s bef aft g K
  | Boundary => if at_boundary bef aft then K bef aft g else None
  | Plus k =>
      match aft with
      | x :: aft' => if in_class k x then more k (x :: bef) aft' g K else None
      | [] => None
      end
  | Seq r1 r2 => run r1 bef aft g (fun b a g' => run r2 b a g' K)
  | Alt r1 r2 =>
      match run r1 bef aft g K with
      | Some a => Some a
      | None => run r2 bef aft g K
      end
  | Group n r =>
      run r bef aft g
        (fun b a g' =>
           K b a ((n, rev (firstn (length b - length bef) b)) :: g'))
  end.
End Matcher.

(** A match attempt with the cursor at a given place. *)
Definition match_here (r : regex) (bef aft : text) : option rmatch :=
  run r bef aft [] (fun b a g => Some (Match b a g)).

(** [Pattern.search]: the first place, left to right, where a match starts. *)
Fixpoint search_from (r : regex) (bef aft : text) : option rmatch :=
  match match_here r bef aft with
  | Some m => Some m
  | None =>
      match aft with
      | x :: aft' => search_from r (x :: bef) aft'
      | [] => None
      end
  end.

Definition search (r : regex) (s : text) : option rmatch := search_from r [] s.

(** [Pattern.finditer]: the matches left to right, none overlapping an
    earlier one.  [skip] counts the characters at the cursor that the
    previous match still covers.  (After an empty match the scan moves on by
    one character; no pattern of the program matches the empty text.) *)
Fixpoint scan (r : regex) (bef aft : text) (skip : nat) : list rmatch :=
  match skip with
  | S k =>
      match aft with
      | x :: aft' => scan r (x :: bef) aft' k
      | [] => []
      end
  | O =>
      match match_here r bef aft with
      | Some m =>
          m :: match aft with
               | x :: aft' =>
                   scan r (x :: bef) aft' (length (m_before m) - length bef - 1)
               | [] => []
               end
      | None =>
          match aft with
          | x :: aft' => scan r (x :: bef) aft' 0
          | [] => []
          end
      end
  end.

Definition finditer (r : regex) (s : text) : list rmatch := scan r [] s 0.

(** [Match.group(n)]; [None] when the group took no part in the match. *)
Fixpoint group (n : nat) (g : groups) : option text :=
  match g with
  | (k, v) :: g' => if Nat.eqb k n then Some v else group n g'
  | [] => None
  end.

End Re.

Import Re.

(** ** Exceptions and results *)

Inductive exn :=
| HTTPException (status_code : Z) (detail : text)
| DriverError (msg : text)          (* an exception raised by pyodbc *)
| IndexError
| UnboundLocalError.

Inductive result (A : Type) :=
| Return (a : A)
| Raise (e : exn).
Arguments Return {A} a.
Arguments Raise {A} e.

(** ** The allow-lists and patterns of [main.py] *)

Definition forbidden_tokens : list text :=
  map T
    [ "create"; "alter"; "drop"; "truncate"; "grant"; "revoke"; "xp_";
      "sp_configure"; "openrowset"; "openquery" ]%string.

(** [x|y|...]: the alternatives in the order written. *)
Fixpoint one_of (l : list text) : regex :=
  match l with
  | [] => Lit []
  | [x] => Lit x
  | x :: l' => Alt (Lit x) (one_of l')
  end.

(** [\b(create|alter|drop|truncate|grant|revoke|xp_|sp_configure|openrowset|openquery)\b] *)
Definition _FORBIDDEN : regex :=
  Seq Boundary (Seq (Group 1 (one_of forbidden_tokens)) Boundary).

Definition _ALLOWED_OBJECTS : list text :=
  map T
    [ "dbo.AppMeta"; "dbo.Snapshots"; "dbo.NoteRules"; "dbo.AppUsers";
      "dbo.AppLookupValues"; "dbo.UstaDefteri"; "dbo.TipBuzulmeModel";
      "dbo.LoomCutMap"; "dbo.TypeSelvedgeMap"; "dbo.BlockedLooms";
      "dbo.DummyLooms"; "dbo.ItemaAyar" ]%string.

Definition _ALLOWED_PROCS : list text :=
  map T [ "dbo.sp_ItemaOtomatikAyar"; "dbo.sp_ItemaTipOzelAyar" ]%string.

(** [\bdbo\.(\w+)\b] *)
Definition _OBJ_REF : regex :=
  Seq Boundary (Seq (Lit (T "dbo.")) (Seq (Group 1 (Plus CWord)) Boundary)).

(** [\bexec\s+(dbo\.(\w+))\b] *)
Definition _EXEC_REF : regex :=
  Seq Boundary
    (Seq (Lit (T "exec"))
       (Seq (Plus CSpace)
          (Seq (Group 1 (Seq (Lit (T "dbo.")) (Group 2 (Plus CWord))))
               Boundary))).

Definition allowed_verbs : list text :=
  map T [ "select"; "insert"; "update"; "delete"; "exec"; "with" ]%string.

(** ** Iteration over a Python [set]

    [objs] in [_validate_query] is a set of strings; the order in which a
    [for] loop visits it is not fixed by the language.  An iteration order
    takes what was inserted, in the order of insertion, to the order of the
    visit: each distinct element once. *)

Definition set_order := list text -> list text.

Definition set_iteration (ord : set_order) : Prop :=
  forall l, NoDup (ord l) /\ forall x, In x (ord l) <-> In x l.

(** The order of first insertion, one of the possible orders. *)
Fixpoint first_seen (seen l : list text) : list text :=
  match l with
  | [] => []
  | x :: l' => if mem x seen then first_seen seen l' else x :: first_seen (x :: seen) l'
  end.

Definition insertion_order : set_order := first_seen [].

(** [str(x)] inside an f-string for the value of [m.group(1)]. *)
Definition fmt (v : option text) : text :=
  match v with Some s => s | None => T "None" end.

Definition not_allowed (obj : text) : bool :=
  negb (mem obj _ALLOWED_OBJECTS) && negb (mem obj _ALLOWED_PROCS).

(** ** [_validate_query] *)

Definition _validate_query (ord : set_order) (query : text) : result unit :=
  let q := strip query in
  match q with
  | [] => Raise (HTTPException 400 (T "Empty query"))
  | _ =>
  match search _FORBIDDEN q with
  | Some _ => Raise (HTTPException 403 (T "Forbidden SQL keyword"))
  | None =>
  match nth_error (split_none_1 q) 0 with
  | None => Raise IndexError
  | Some tok =>
  let head := lower tok in
  if negb (mem head allowed_verbs) then
    Raise (HTTPException 403
             (T "Only SELECT/INSERT/UPDATE/DELETE/EXEC are allowed"))
  else
  let objs :=
    ord (map (fun m => T "dbo." ++ fmt (group 1 (m_groups m)))
             (finditer _OBJ_REF q)) in
  match find not_allowed objs with
  | Some obj => Raise (HTTPException 403 (T "Object not allowed: " ++ obj))
  | None =>
  if text_eqb head (T "exec") then
    match search _EXEC_REF q with
    | None =>
        Raise (HTTPException 403
                 (T "EXEC only allowed for dbo stored procedures"))
    | Some m =>
        match group 1 (m_groups m) with
        | Some proc =>
            if negb (mem proc _ALLOWED_PROCS) then
              Raise (HTTPException 403 (T "Procedure not allowed: " ++ proc))
            else Return tt
        | None =>
            Raise (HTTPException 403 (T "Procedure not allowed: None"))
        end
    end
  else Return tt
  end end end end.

(** ** Base64, as [base64.b64decode] and [base64.b64encode] compute it

    [b64decode(s)] on a [str] first encodes it as ASCII (a [ValueError]
    when a character is not ASCII) and then runs [binascii.a2b_base64]
    in its default, lenient mode: characters outside the alphabet are
    skipped, a complete pad ends the input, and an incomplete last
    quadruple is an error.  A failure of either kind is [None] here. *)

Module Base64.

Definition alphabet : text :=
  T "ABCDEFGHIJKLMNOPQRSTUVWXYZabcdefghijklmnopqrstuvwxyz0123456789+/".

Definition pad : ascii := "="%char.

(** [table_b2a_base64] *)
Definition b2a (n : N) : ascii := nth (N.to_nat n) alphabet pad.

(** [table_a2b_base64]: the value of a character of the alphabet, and a
    number above 63 for every other character. *)
Definition a2b (c : ascii) : N :=
  let n := code c in
  if between 65 90 n then n - 65
  else if between 97 122 n then n - 71
  else if between 48 57 n then n + 4
  else if N.eqb n 43 then 62
  else if N.eqb n 47 then 63
  else 255.

(** A value stored into an [unsigned char]. *)
Definition to_byte (n : N) : byte :=
  match Byte.of_N (n mod 256) with
  | Some b => b
  | None => x00
  end.

Definition enc3 (a b c : N) : text :=
  [ b2a (N.shiftr a 2);
    b2a (N.lor (N.shiftl (N.land a 3) 4) (N.shiftr b 4));
    b2a (N.lor (N.shiftl (N.land b 15) 2) (N.shiftr c 6));
    b2a (N.land c 63) ].

Definition enc2 (a b : N) : text :=
  [ b2a (N.shiftr a 2);
    b2a (N.lor (N.shiftl (N.land a 3) 4) (N.shiftr b 4));
    b2a (N.shiftl (N.land b 15) 2);
    pad ].

Definition enc1 (a : N) : text :=
  [ b2a (N.shiftr a 2); b2a (N.shiftl (N.land a 3) 4); pad; pad ].

(** [base64.b64encode(data).decode("ascii")]: three bytes become four
    characters, and a last group of one or two bytes is padded. *)
Fixpoint b64encode (data : list byte) : text :=
  match data with
  | a :: b :: c :: rest =>
      enc3 (Byte.to_N a) (Byte.to_N b) (Byte.to_N c) ++ b64encode rest
  | [a; b] => enc2 (Byte.to_N a) (Byte.to_N b)
  | [a] => enc1 (Byte.to_N a)
  | [] => []
  end.

(** The loop of [binascii.a2b_base64]; [out] is the output so far, last
    byte first. *)
Fixpoint a2b_base64 (data : text) (quad_pos : nat) (leftchar : N) (pads : nat)
    (out : list byte) : option (list byte) :=
  match data with
  | [] => if Nat.eqb quad_pos 0 then Some (rev out) else None
  | c :: rest =>
      if ascii_dec c pad then
        if Nat.leb 2 quad_pos then
          if Nat.leb 4 (quad_pos + S pads) then Some (rev out)
          else a2b_base64 rest quad_pos leftchar (S pads) out
        else a2b_base64 rest quad_pos leftchar pads out
      else
        let v := a2b c in
        if N.leb 64 v then a2b_base64 rest quad_pos leftchar pads out
        else
          match quad_pos with
          | 0 => a2b_base64 rest 1 v 0 out
          | 1 =>
              a2b_base64 rest 2 (N.land v 15) 0
                (to_byte (N.lor (N.shiftl leftchar 2) (N.shiftr v 4)) :: out)
          | 2 =>
              a2b_base64 rest 3 (N.land v 3) 0
                (to_byte (N.lor (N.shiftl leftchar 4) (N.shiftr v 2)) :: out)
          | _ =>
              a2b_base64 rest 0 0 0
                (to_byte (N.lor (N.shiftl leftchar 6) v) :: out)
          end
  end.

Definition is_ascii (c : ascii) : bool := N.ltb (code c) 128.

Definition b64decode (s : text) : option (list byte) :=
  if forallb is_ascii s then a2b_base64 s 0 0 0 [] else None.

End Base64.

(** ** Parameter and result values *)

Inductive value :=
| VNone
| VBool (b : bool)
| VInt (z : Z)
| VStr (s : text)
| VBytes (b : list byte)
| VOther (repr : text).   (* any other value: float, Decimal, datetime, ... *)

Fixpoint set_nth (A : Type) (i : nat) (x : A) (l : list A) : list A :=
  match l, i with
  | [], _ => []
  | _ :: l', O => x :: l'
  | y :: l', S i' => y :: set_nth i' x l'
  end.

(** The [for i, p in enumerate(out)] loop of [_adapt_params], with [n]
    elements still to visit from index [i]. *)
Fixpoint adapt_from (n i : nat) (out : list value) : list value :=
  match n with
  | O => out
  | S n' =>
      match nth_error out i with
      | Some (VStr p) =>
          match Base64.b64decode p with
          | Some b => adapt_from n' (S i) (set_nth i (VBytes b) out)
          | None => adapt_from n' (S i) out
          end
      | _ => adapt_from n' (S i) out
      end
  end.

Definition _adapt_params (query : text) (params : list value) : list value :=
  let q := lower query in
  if contains (T "insert into dbo.noterules") q
     && match params with [] => false | _ => true end
  then adapt_from (length params) 0 params
  else params.

Definition _encode_value (v : value) : value :=
  match v with
  | VBytes b => VStr (Base64.b64encode b)
  | _ => v
  end.

(** ** Configuration and the auth guard *)

(** [os.getenv]. *)
Definition environ := text -> option text.

Definition _env (env : environ) (name default : text) : text :=
  match env name with
  | Some (c :: v) => strip (c :: v)
  | _ => default
  end.

Definition _require_token (env : environ) (x_token : option text) : result unit :=
  match _env env (T "UZMANRAPOR_API_TOKEN") [] with
  | [] => Return tt
  | expected =>
      match x_token with
      | Some (c :: t) =>
          if text_eqb (c :: t) expected then Return tt
          else Raise (HTTPException 401 (T "Unauthorized"))
      | _ => Raise (HTTPException 401 (T "Unauthorized"))
      end
  end.

Definition _sql_conn_str (env : environ) : text :=
  match _env env (T "UZMANRAPOR_SQL_CONN_STR") [] with
  | c :: raw => c :: raw
  | [] =>
      let driver := _env env (T "UZMANRAPOR_SQL_DRIVER") (T "{SQL Server}") in
      let server := _env env (T "UZMANRAPOR_SQL_SERVER") (T "10.30.9.14,1433") in
      let database := _env env (T "UZMANRAPOR_SQL_DATABASE") (T "UzmanRaporDB") in
      let uid := _env env (T "UZMANRAPOR_SQL_UID") [] in
      let pwd := _env env (T "UZMANRAPOR_SQL_PWD") [] in
      let trusted := _env env (T "UZMANRAPOR_SQL_TRUSTED") [] in
      let parts :=
        [ T "Driver=" ++ driver ++ T ";"; T "Server=" ++ server ++ T ";";
          T "Database=" ++ database ++ T ";" ] in
      let parts :=
        if mem (lower trusted) [T "1"; T "true"; T "yes"] then
          parts ++ [T "Trusted_Connection=yes;"]
        else
          match uid, pwd with
          | _ :: _, _ :: _ =>
              parts ++ [T "UID=" ++ uid ++ T ";"] ++ [T "PWD=" ++ pwd ++ T ";"]
          | _, _ => parts ++ [T "Trusted_Connection=yes;"]
          end in
      concat parts
  end.

(** ** The database driver

    What [pyodbc] and the database answer during one request: for each
    call the handler can make, either an error message (the call raises) or
    its result. *)

Record column := Column { col_name : text; col_type : text }.

Record driver := Driver {
  on_connect : text -> Z -> option text;
  on_cursor : option text;
  on_execute : text -> list value -> option text;
  description : option (list column);             (* [cur.description] *)
  on_fetchall : text + list (list value);
  on_commit : option text;
  rowcount : option Z;                            (* [cur.rowcount] *)
  on_close : option text
}.

(** The calls made on the driver, in order. *)
Inductive event :=
| EvConnect (conn_str : text) (timeout : Z) (ok : bool)
| EvCursor
| EvExecute (query : text) (params : list value)
| EvFetchall
| EvCommit
| EvClose.

(** The handler's frame: the calls so far (latest first) and whether the
    local variable [conn] is bound. *)
Record frame := Frame { trace : list event; conn : bool }.

Definition M (A : Type) := frame -> frame * result A.

Definition ret (A : Type) (a : A) : M A := fun s => (s, Return a).

Definition raise (A : Type) (e : exn) : M A := fun s => (s, Raise e).

Definition bind (A B : Type) (m : M A) (k : A -> M B) : M B :=
  fun s =>
    match m s with
    | (s', Return a) => k a s'
    | (s', Raise e) => (s', Raise e)
    end.

Notation "x <- m ;; k" := (bind m (fun x => k))
  (at level 61, m at next level, right associativity).
Notation "m ;;; k" := (bind m (fun _ => k))
  (at level 61, right associativity).

Definition lift (A : Type) (r : result A) : M A := fun s => (s, r).

Definition emit (e : event) : M unit :=
  fun s => (Frame (e :: trace s) (conn s), Return tt).

Definition outcome (o : option text) : M unit :=
  match o with
  | None => ret tt
  | Some msg => raise unit (DriverError msg)
  end.

(** [try: m except: h] *)
Definition try_except (A : Type) (m : M A) (h : exn -> M A) : M A :=
  fun s =>
    match m s with
    | (s', Raise e) => h e s'
    | r => r
    end.

(** [try: m finally: fin]: [fin] runs on every way out of [m]; an exception
    of [fin] replaces the outcome of [m]. *)
Definition try_finally (A : Type) (m : M A) (fin : M unit) : M A :=
  fun s =>
    match m s with
    | (s', r) =>
        match fin s' with
        | (s'', Return _) => (s'', r)
        | (s'', Raise e) => (s'', Raise e)
        end
    end.

(** [conn = pyodbc.connect(conn_str, timeout=t)] *)
Definition connect (drv : driver) (conn_str : text) (t : Z) : M unit :=
  fun s =>
    match on_connect drv conn_str t with
    | None => (Frame (EvConnect conn_str t true :: trace s) true, Return tt)
    | Some msg =>
        (Frame (EvConnect conn_str t false :: trace s) (conn s),
         Raise (DriverError msg))
    end.

(** [conn.close()]: reading an unbound local raises. *)
Definition close (drv : driver) : M unit :=
  fun s =>
    if conn s then (emit EvClose ;;; outcome (on_close drv)) s
    else (s, Raise UnboundLocalError).

(** [str(e)] *)
Definition str_exn (e : exn) : text :=
  match e with
  | HTTPException _ d => d
  | DriverError msg => msg
  | IndexError => T "list index out of range"
  | UnboundLocalError => T "local variable referenced before assignment"
  end.

(** ** The [/sql] handler *)

Record SqlRequest := Request { query : text; params : list value }.

Inductive jvalue :=
| JNames (l : list text)
| JRows (l : list (list value))
| JInt (z : Z).

Definition response := list (text * jvalue).

Definition truthy (A : Type) (d : option (list A)) : bool :=
  match d with
  | Some (_ :: _) => true
  | _ => false
  end.

Definition sql_body (drv : driver) (conn_str : text) (q : text)
    (ps : list value) : M response :=
  connect drv conn_str 10 ;;;
  emit EvCursor ;;; outcome (on_cursor drv) ;;;
  emit (EvExecute q ps) ;;; outcome (on_execute drv q ps) ;;;
  if truthy (description drv) then
    let cols :=
      map col_name (match description drv with Some d => d | None => [] end) in
    emit EvFetchall ;;;
    rows <- (match on_fetchall drv with
             | inr rows => ret rows
             | inl msg => raise _ (DriverError msg)
             end) ;;
    let data_rows := map (map _encode_value) rows in
    ret [ (T "columns", JNames cols); (T "rows", JRows data_rows);
          (T "rowcount", JInt (Z.of_nat (length data_rows))) ]
  else
    emit EvCommit ;;; outcome (on_commit drv) ;;;
    let rc := match rowcount drv with Some n => n | None => (-1)%Z end in
    ret [ (T "columns", JNames []); (T "rows", JRows []);
          (T "affected_rows", JInt rc) ].

Definition sql (ord : set_order) (env : environ) (drv : driver)
    (req : SqlRequest) (x_token : option text) : M response :=
  lift (_require_token env x_token) ;;;
  lift (_validate_query ord (query req)) ;;;
  let conn_str := _sql_conn_str env in
  let ps := _adapt_params (query req) (params req) in
  try_finally
    (try_except
       (sql_body drv conn_str (query req) ps)
       (fun e =>
          match e with
          | HTTPException _ _ => raise _ e
          | _ => raise _ (HTTPException 500 (str_exn e))
          end))
    (try_except (close drv) (fun _ => ret tt)).

(** One request, from a fresh frame. *)
Definition handle (ord : set_order) (env : environ) (drv : driver)
    (req : SqlRequest) (x_token : option text) : frame * result response :=
  sql ord env drv req x_token (Frame [] false).

Fixpoint lookup (k : text) (d : response) : option jvalue :=
  match d with
  | (k', v) :: d' => if text_eqb k k' then Some v else lookup k d'
  | [] => None
  end.

(** Whether a connection is held after a sequence of driver calls, given
    oldest first: acquired by a successful connect, given up by the call of
    [close] (pyodbc releases the connection in [close] whatever the call
    then reports). *)
Fixpoint held_after (held : bool) (calls : list event) : bool :=
  match calls with
  | [] => held
  | EvConnect _ _ true :: r => held_after true r
  | EvClose :: r => held_after false r
  | _ :: r => held_after held r
  end.

(** * Specification

    The notions the properties are stated with, and the auxiliary functions
    of their proofs. *)

(** Every character. *)
Definition all_chars : list ascii := map ascii_of_nat (seq 0 256).

(** White space removed at the right end only. *)
Definition rstrip (s : text) : text := rev (dropwhile is_space (rev s)).

(** A text [x] occurs in [s] as a whole word: no word character touches it
    on either side. *)
Definition occurs (core : text -> Prop) (s : text) : Prop :=
  exists pre x post,
    s = pre ++ x ++ post /\ core x /\
    word_before (rev pre) = false /\ word_after post = false.

(** A text that begins and ends with a word character. *)
Definition word_ended (x : text) : Prop :=
  word_after x = true /\ word_before (rev x) = true.

(** The text contains a forbidden keyword as a whole word, in any case. *)
Definition contains_forbidden (s : text) : Prop :=
  exists kw, In kw forbidden_tokens /\ occurs (fun x => lower x = kw) s.

(** The first [length s] characters of [aft], when they are [s] up to
    letter case. *)
Fixpoint ci_prefix (s aft : text) : option (text * text) :=
  match s with
  | [] => Some ([], aft)
  | c :: s' =>
      match aft with
      | x :: aft' =>
          if ci_char c x then
            match ci_prefix s' aft' with
            | Some (m, post) => Some (x :: m, post)
            | None => None
            end
          else None
      | [] => None
      end
  end.

(** Nothing, or white space first. *)
Definition space_first (rest : text) : Prop :=
  match rest with
  | [] => True
  | c :: _ => is_space c = true
  end.

(** [tok] is the first white-space-delimited token of [query]. *)
Definition first_token (query tok : text) : Prop :=
  exists l rest,
    query = l ++ tok ++ rest /\
    forallb is_space l = true /\
    tok <> [] /\ forallb (fun c => negb (is_space c)) tok = true /\
    space_first rest.

(** The rejection of the verb check. *)
Definition verb_error : exn :=
  HTTPException 403 (T "Only SELECT/INSERT/UPDATE/DELETE/EXEC are allowed").

(** The names [_validate_query] collects from the text, as inserted. *)
Definition collected (q : text) : list text :=
  map (fun m => T "dbo." ++ fmt (group 1 (m_groups m))) (finditer _OBJ_REF q).

(** What [_validate_query] does once the empty-text and forbidden-keyword
    checks have passed and the head token is known. *)
Definition after_head (ord : set_order) (q tok : text) : result unit :=
  let head := lower tok in
  if negb (mem head allowed_verbs) then Raise verb_error
  else
    match find not_allowed (ord (collected q)) with
    | Some obj => Raise (HTTPException 403 (T "Object not allowed: " ++ obj))
    | None =>
        if text_eqb head (T "exec") then
          match search _EXEC_REF q with
          | None =>
              Raise (HTTPException 403
                       (T "EXEC only allowed for dbo stored procedures"))
          | Some m =>
              match group 1 (m_groups m) with
              | Some proc =>
                  if negb (mem proc _ALLOWED_PROCS) then
                    Raise (HTTPException 403
                             (T "Procedure not allowed: " ++ proc))
                  else Return tt
              | None =>
                  Raise (HTTPException 403 (T "Procedure not allowed: None"))
              end
          end
        else Return tt
    end.

(** [x] is [dbo.ident], the qualifier in any letter case and [ident] a
    run of word characters that is not empty. *)
Definition qualified (ident x : text) : Prop :=
  exists d, x = d ++ ident /\ lower d = T "dbo." /\
            ident <> [] /\ forallb is_word ident = true.

(** The text [s] refers to [dbo.ident]: it holds it as a whole word. *)
Definition references (s ident : text) : Prop := occurs (qualified ident) s.

(** The union of the two allow-lists. *)
Definition allowed_names : list text := _ALLOWED_OBJECTS ++ _ALLOWED_PROCS.

(** What a match of [_OBJ_REF] at the cursor is. *)
Definition obj_at (bef aft : text) : option rmatch :=
  if at_boundary bef aft then
    match ci_prefix (T "dbo.") aft with
    | Some (d, rest) =>
        match span is_word rest with
        | ([], _) => None
        | (w, post) => Some (Match (rev w ++ rev d ++ bef) post [(1, w)])
        end
    | None => None
    end
  else None.

(** The values of a byte. *)
Definition small : list N := map N.of_nat (seq 0 256).

(** A six-bit value whose character the decoder reads back as that value. *)
Definition sextet_ok (v : N) : bool :=
  (N.ltb v 64 && N.eqb (Base64.a2b (Base64.b2a v)) v
   && (if ascii_dec (Base64.b2a v) Base64.pad then false else true)
   && Base64.is_ascii (Base64.b2a v))%bool.

(** The text that marks the insert whose parameters are adapted. *)
Definition noterules_insert : text := T "insert into dbo.noterules".

(** The lower-cased query text holds [insert into dbo.noterules]. *)
Definition recognized (query : text) : Prop :=
  exists pre post, lower query = pre ++ noterules_insert ++ post.

(** What the adapter does to one parameter of a recognized insert. *)
Definition adapt_one (v : value) : value :=
  match v with
  | VStr s =>
      match Base64.b64decode s with
      | Some b => VBytes b
      | None => v
      end
  | _ => v
  end.

(** The answer to a row-returning statement. *)
Definition rows_form (cols : list text) (rows : list (list value)) : response :=
  [ (T "columns", JNames cols); (T "rows", JRows rows);
    (T "rowcount", JInt (Z.of_nat (length rows))) ].

(** The answer to a mutation. *)
Definition mutation_form (affected : Z) : response :=
  [ (T "columns", JNames []); (T "rows", JRows []);
    (T "affected_rows", JInt affected) ].

(** The request got as far as a statement executed without error. *)
Definition executed (ord : set_order) (env : environ) (drv : driver)
    (req : SqlRequest) (x_token : option text) : Prop :=
  _require_token env x_token = Return tt /\
  _validate_query ord (query req) = Return tt /\
  on_connect drv (_sql_conn_str env) 10 = None /\
  on_cursor drv = None /\
  on_execute drv (query req) (_adapt_params (query req) (params req)) = None.

(** A read of the table of note rules, and a driver that answers it with
    one row. *)
Definition sample_request : SqlRequest :=
  Request (T "select Name, Payload from dbo.NoteRules") [].

Definition sample_driver : driver :=
  Driver (fun _ _ => None) None (fun _ _ => None)
    (Some [Column (T "Name") (T "str"); Column (T "Payload") (T "bytes")])
    (inr [[VStr (T "r1"); VBytes [x41]]]) None (Some (-1)%Z) None.

(** A configuration with no secret, one with a secret, and a driver on
    which every call succeeds. *)
Definition open_env : environ := fun _ => None.

Definition secret_env : environ :=
  fun name =>
    if text_eqb name (T "UZMANRAPOR_API_TOKEN") then Some (T "s3cret") else None.

Definition idle_driver : driver :=
  Driver (fun _ _ => None) None (fun _ _ => None) None (inr []) None None None.

(** ** Notions of the further properties *)

(** What a pattern matches, read off its syntax: [matches r bef aft g bef'
    aft' g'] when [r] can take the cursor from [(bef, aft)] to
    [(bef', aft')], the groups going from [g] to [g']. *)
Inductive matches :
  regex -> text -> text -> groups -> text -> text -> groups -> Prop :=
| MLit s bef x post g :
    lower x = lower s ->
    matches (Lit s) bef (x ++ post) g (rev x ++ bef) post g
| MBoundary bef aft g :
    at_boundary bef aft = true -> matches Boundary bef aft g bef aft g
| MPlus k bef w post g :
    w <> [] -> forallb (in_class k) w = true ->
    matches (Plus k) bef (w ++ post) g (rev w ++ bef) post g
| MSeq r1 r2 bef aft g b1 a1 g1 b2 a2 g2 :
    matches r1 bef aft g b1 a1 g1 -> matches r2 b1 a1 g1 b2 a2 g2 ->
    matches (Seq r1 r2) bef aft g b2 a2 g2
| MAltL r1 r2 bef aft g b a g' :
    matches r1 bef aft g b a g' -> matches (Alt r1 r2) bef aft g b a g'
| MAltR r1 r2 bef aft g b a g' :
    matches r2 bef aft g b a g' -> matches (Alt r1 r2) bef aft g b a g'
| MGroup n r bef aft g b a g' :
    matches r bef aft g b a g' ->
    matches (Group n r) bef aft g b a
      ((n, rev (firstn (length b - length bef) b)) :: g').

(** [s] holds, as a whole word, [exec], white space and [proc], where
    [proc] is a reference [dbo.ident] with the qualifier in some letter
    case. *)
Definition exec_of (proc x : text) : Prop :=
  exists e ws,
    x = e ++ ws ++ proc /\ lower e = T "exec" /\
    ws <> [] /\ forallb is_space ws = true /\
    exists ident, qualified ident proc.

Definition exec_call (s proc : text) : Prop := occurs (exec_of proc) s.

(** The name of the variable that holds the shared secret. *)
Definition token_variable : text := T "UZMANRAPOR_API_TOKEN".

(** The guard and the validator both let the request through. *)
Definition passes_checks (ord : set_order) (env : environ) (req : SqlRequest)
    (x_token : option text) : Prop :=
  _require_token env x_token = Return tt /\
  _validate_query ord (query req) = Return tt.

(** The same driver with another answer to [close]. *)
Definition with_close (drv : driver) (c : option text) : driver :=
  Driver (on_connect drv) (on_cursor drv) (on_execute drv) (description drv)
    (on_fetchall drv) (on_commit drv) (rowcount drv) c.

Definition is_execute (e : event) : bool :=
  match e with EvExecute _ _ => true | _ => false end.

Definition is_bytes (v : value) : bool :=
  match v with VBytes _ => true | _ => false end.

(** A driver whose database rejects the statement. *)
Definition failing_driver : driver :=
  Driver (fun _ _ => None) None (fun _ _ => Some (T "42S02 Invalid object name"))
    None (inr []) None None None.


(** A character of the base64 alphabet. *)
Definition in_alphabet (c : ascii) : bool := N.ltb (Base64.a2b c) 64.

(** ** The manual save of the form ([app/itema_tab.py])

    [_save_manual_settings] composes one statement that updates or
    inserts the row of a type code, and runs it on the connection it is
    given.  The column list [ITEMA_COLUMNS] is imported from a module that
    is not among the sources, and [str.upper] does not stay within Latin-1:
    both are parameters here. *)

Definition nl : text := ["010"%char].

Definition indent8 : text := T "        ".

Definition indent12 : text := T "            ".

(** [sep.join(parts)] *)
Fixpoint join (sep : text) (parts : list text) : text :=
  match parts with
  | [] => []
  | [p] => p
  | p :: rest => p ++ sep ++ join sep rest
  end.

(** [values.get(c) or None] *)
Definition get_or_none (values : text -> option text) (c : text) : value :=
  match values c with
  | Some (x :: v) => VStr (x :: v)
  | _ => VNone
  end.

(** The column names but [drop], compared in lower case. *)
Definition columns_but (drop : text) (columns : list text) : list text :=
  filter (fun c => negb (text_eqb (lower c) drop)) columns.

(** The statement, from the columns to insert and the columns to set. *)
Definition save_sql (cols set_cols : list text) : text :=
  let table := T "dbo.ItemaAyar" in
  let update_set_sql :=
    join (T ", ") (map (fun c => T "[" ++ c ++ T "] = ?") set_cols) in
  let insert_cols_sql :=
    join (T ", ") (map (fun c => T "[" ++ c ++ T "]") cols) in
  let insert_placeholders := join (T ", ") (repeat (T "?") (length cols)) in
  nl ++ indent8 ++ T "IF EXISTS (SELECT 1 FROM " ++ table
     ++ T " WHERE [tip] = ?)" ++ nl
  ++ indent8 ++ T "BEGIN" ++ nl
  ++ indent12 ++ T "UPDATE " ++ table ++ nl
  ++ indent12 ++ T "SET " ++ update_set_sql ++ nl
  ++ indent12 ++ T "WHERE [tip] = ?;" ++ nl
  ++ indent8 ++ T "END" ++ nl
  ++ indent8 ++ T "ELSE" ++ nl
  ++ indent8 ++ T "BEGIN" ++ nl
  ++ indent12 ++ T "INSERT INTO " ++ table ++ T " (" ++ insert_cols_sql
     ++ T ")" ++ nl
  ++ indent12 ++ T "VALUES (" ++ insert_placeholders ++ T ");" ++ nl
  ++ indent8 ++ T "END" ++ nl
  ++ indent8.

Inductive save_exn :=
| ValueError                      (* the type code is empty *)
| ConnectionError (msg : text).   (* an exception of the connection *)

(** [_save_manual_settings(self, conn, values)]: the calls made on the
    connection, latest first, and the outcome. *)
Definition _save_manual_settings (ITEMA_COLUMNS : list text)
    (upper : text -> text) (conn : driver) (values : text -> option text) :
    list event * (save_exn + unit) :=
  let cols := columns_but (T "sira_no") ITEMA_COLUMNS in
  let tip_val :=
    upper (strip (match values (T "tip") with
                  | Some (x :: v) => x :: v
                  | _ => []
                  end)) in
  match tip_val with
  | [] => ([], inl ValueError)
  | _ =>
      let set_cols := columns_but (T "tip") cols in
      let update_params := map (get_or_none values) set_cols in
      let insert_params := map (get_or_none values) cols in
      let sql := save_sql cols set_cols in
      let exec_params :=
        [VStr tip_val] ++ update_params ++ [VStr tip_val] ++ insert_params in
      match on_cursor conn with
      | Some msg => ([EvCursor], inl (ConnectionError msg))
      | None =>
          match on_execute conn sql exec_params with
          | Some msg =>
              ([EvExecute sql exec_params; EvCursor], inl (ConnectionError msg))
          | None =>
              match on_commit conn with
              | Some msg =>
                  ([EvCommit; EvExecute sql exec_params; EvCursor],
                   inl (ConnectionError msg))
              | None =>
                  ([EvCommit; EvExecute sql exec_params; EvCursor], inr tt)
              end
          end
      end
  end.

(** The number of placeholders in a statement. *)
Definition placeholders (s : text) : nat := count_occ ascii_dec s "?"%char.

(** * Properties *)

(** ** Sets of names *)

Lemma text_eqb_eq (a b : text) : text_eqb a b = true <-> a = b.
Proof.
  unfold text_eqb. destruct (list_eq_dec ascii_dec a b); split; congruence.
Qed.

Lemma mem_In (x : text) (l : list text) : mem x l = true <-> In x l.
Proof.
  unfold mem. rewrite existsb_exists. split.
  - intros [y [Hy E]]. apply text_eqb_eq in E. subst. exact Hy.
  - intros H. exists x. split; [exact H | now apply text_eqb_eq].
Qed.

Lemma first_seen_In (l seen : list text) (x : text) :
  In x (first_seen seen l) <-> In x l /\ ~ In x seen.
Proof.
  revert seen. induction l as [|y l IH]; intros seen; simpl.
  - tauto.
  - destruct (mem y seen) eqn:E.
    + apply mem_In in E. rewrite IH. split.
      * intros [H1 H2]. auto.
      * intros [[H1|H1] H2]; [subst; contradiction | auto].
    + assert (~ In y seen) as Hn by (rewrite <- mem_In; congruence).
      simpl. rewrite IH. simpl. split.
      * intros [H|[H1 H2]]; [subst; auto | auto].
      * intros [[H1|H1] H2]; [auto|].
        destruct (list_eq_dec ascii_dec y x) as [e|ne]; [auto|].
        right. split; [auto|]. intros [H|H]; auto.
Qed.

Lemma first_seen_NoDup (l seen : list text) : NoDup (first_seen seen l).
Proof.
  revert seen. induction l as [|y l IH]; intros seen; simpl.
  - constructor.
  - destruct (mem y seen); [apply IH|].
    constructor; [|apply IH].
    rewrite first_seen_In. simpl. tauto.
Qed.

Lemma insertion_order_valid : set_iteration insertion_order.
Proof.
  intros l. split; [apply first_seen_NoDup|].
  intros x. unfold insertion_order. rewrite first_seen_In. simpl. tauto.
Qed.

(** ** Characters *)

Lemma all_chars_complete (c : ascii) : In c all_chars.
Proof.
  unfold all_chars. rewrite <- (ascii_nat_embedding c).
  apply in_map, in_seq. pose proof (nat_ascii_bounded c). lia.
Qed.

Lemma for_all_chars (P : ascii -> bool) :
  forallb P all_chars = true -> forall c, P c = true.
Proof.
  intros H c. rewrite forallb_forall in H. apply H, all_chars_complete.
Qed.

Lemma space_not_word (c : ascii) : is_space c = true -> is_word c = false.
Proof.
  revert c.
  assert (forall c, (negb (is_space c) || negb (is_word c)) = true) as H
    by (apply for_all_chars; vm_compute; reflexivity).
  intros c Hc. specialize (H c). rewrite Hc in H. simpl in H.
  now apply negb_true_iff.
Qed.

Lemma word_lower (c : ascii) : is_word (lower_char c) = is_word c.
Proof.
  revert c.
  assert (forall c, Bool.eqb (is_word (lower_char c)) (is_word c) = true) as H
    by (apply for_all_chars; vm_compute; reflexivity).
  intros c. now apply eqb_prop.
Qed.

(** ** Text *)

Lemma dropwhile_all (p : ascii -> bool) (s : text) :
  forallb p s = true -> dropwhile p s = [].
Proof.
  induction s as [|c s IH]; simpl; [reflexivity|].
  intros H. apply andb_true_iff in H as [H1 H2]. rewrite H1. now apply IH.
Qed.

Lemma dropwhile_app_stop (p : ascii -> bool) (a : text) (y : ascii) (b : text) :
  p y = false -> dropwhile p (a ++ y :: b) = dropwhile p a ++ y :: b.
Proof.
  intros Hy. induction a as [|c a IH]; simpl.
  - now rewrite Hy.
  - destruct (p c); [exact IH | reflexivity].
Qed.

Lemma dropwhile_suffix (p : ascii -> bool) (s : text) :
  exists ws, s = ws ++ dropwhile p s /\ forallb p ws = true.
Proof.
  induction s as [|c s [ws [E H]]]; simpl.
  - exists []. auto.
  - destruct (p c) eqn:Hc.
    + exists (c :: ws). simpl. rewrite Hc, H. split; [congruence | reflexivity].
    + exists []. auto.
Qed.

Lemma strip_rstrip (s : text) : strip s = rstrip (dropwhile is_space s).
Proof. reflexivity. Qed.

Lemma rstrip_app_stop (a : text) (y : ascii) (b : text) :
  is_space y = false -> rstrip (a ++ [y] ++ b) = a ++ [y] ++ rstrip b.
Proof.
  intros Hy. unfold rstrip. rewrite !rev_app_distr. simpl.
  rewrite <- app_assoc. simpl.
  rewrite dropwhile_app_stop by exact Hy.
  rewrite rev_app_distr. simpl. rewrite rev_involutive.
  now rewrite <- app_assoc.
Qed.

Lemma rstrip_prefix (s : text) :
  exists ws, s = rstrip s ++ ws /\ forallb is_space ws = true.
Proof.
  unfold rstrip. destruct (dropwhile_suffix is_space (rev s)) as [ws [E H]].
  exists (rev ws). split.
  - rewrite <- rev_app_distr, <- E. now rewrite rev_involutive.
  - rewrite forallb_forall in *. intros x Hx. apply H. now apply in_rev.
Qed.

Lemma strip_blank (s : text) : forallb is_space s = true -> strip s = [].
Proof.
  intros H. unfold strip. now rewrite (dropwhile_all _ _ H).
Qed.


Lemma word_before_app (a b : text) :
  a <> [] -> word_before (a ++ b) = word_before a.
Proof. destruct a; [congruence | reflexivity]. Qed.

Lemma word_after_blank (ws : text) :
  forallb is_space ws = true -> word_after ws = false.
Proof.
  destruct ws as [|c ws]; simpl; [reflexivity|].
  intros H. apply andb_true_iff in H as [H _]. now apply space_not_word.
Qed.

Lemma word_before_blank (ws : text) :
  forallb is_space ws = true -> word_before (rev ws) = false.
Proof.
  intros H. destruct (rev ws) as [|c r] eqn:E; simpl; [reflexivity|].
  apply space_not_word. rewrite forallb_forall in H. apply H.
  apply in_rev. rewrite E. now left.
Qed.

Lemma rev_nil_inv (A : Type) (l : list A) : rev l = [] -> l = [].
Proof.
  intros H. apply (f_equal (@rev A)) in H. now rewrite rev_involutive in H.
Qed.

Lemma word_before_suffix (ws a : text) :
  forallb is_space ws = true ->
  word_before (rev (ws ++ a)) = word_before (rev a).
Proof.
  intros H. rewrite rev_app_distr.
  destruct (rev a) as [|c r] eqn:E; simpl; [|reflexivity].
  now apply word_before_blank.
Qed.

Lemma word_after_prefix (a ws : text) :
  forallb is_space ws = true -> word_after (a ++ ws) = word_after a.
Proof.
  intros H. destruct a as [|c a]; simpl; [|reflexivity].
  now apply word_after_blank.
Qed.

Lemma word_not_space (c : ascii) : is_word c = true -> is_space c = false.
Proof.
  intros H. destruct (is_space c) eqn:E; [|reflexivity].
  apply space_not_word in E. congruence.
Qed.

Lemma word_ended_first (x : text) :
  word_ended x -> exists y x', x = y :: x' /\ is_space y = false.
Proof.
  intros [H _]. destruct x as [|y x']; simpl in H; [discriminate|].
  exists y, x'. split; [reflexivity | now apply word_not_space].
Qed.

Lemma word_ended_last (x : text) :
  word_ended x -> exists x' z, x = x' ++ [z] /\ is_space z = false.
Proof.
  intros [_ H]. destruct (rev x) as [|z r] eqn:E; simpl in H; [discriminate|].
  exists (rev r), z. split; [|now apply word_not_space].
  apply (f_equal (@rev ascii)) in E. rewrite rev_involutive in E.
  exact E.
Qed.

Lemma strip_around (pre x post : text) :
  word_ended x ->
  strip (pre ++ x ++ post) = dropwhile is_space pre ++ x ++ rstrip post.
Proof.
  intros Hx. rewrite strip_rstrip.
  destruct (word_ended_first Hx) as [y [x' [E Hy]]].
  rewrite E at 1. simpl. rewrite dropwhile_app_stop by exact Hy.
  change (y :: x' ++ post) with ((y :: x') ++ post). rewrite <- E.
  destruct (word_ended_last Hx) as [x'' [z [E' Hz]]].
  rewrite E'. rewrite <- !app_assoc. rewrite app_assoc.
  rewrite rstrip_app_stop by exact Hz. now rewrite <- !app_assoc.
Qed.

Lemma strip_decompose (s : text) :
  exists l r, s = l ++ strip s ++ r /\
              forallb is_space l = true /\ forallb is_space r = true.
Proof.
  destruct (dropwhile_suffix is_space s) as [l [E Hl]].
  destruct (rstrip_prefix (dropwhile is_space s)) as [r [E' Hr]].
  exists l, r. rewrite strip_rstrip. split; [|auto]. now rewrite <- E', <- E.
Qed.

Lemma occurs_strip (core : text -> Prop) (s : text) :
  (forall x, core x -> word_ended x) ->
  occurs core s <-> occurs core (strip s).
Proof.
  intros Hcore. split.
  - intros [pre [x [post [E [Hx [Hb Ha]]]]]]. subst s.
    rewrite strip_around by auto.
    exists (dropwhile is_space pre), x, (rstrip post). repeat split; auto.
    + destruct (dropwhile_suffix is_space pre) as [ws [E H]].
      rewrite E in Hb. now rewrite word_before_suffix in Hb.
    + destruct (rstrip_prefix post) as [ws [E H]].
      rewrite E in Ha. now rewrite word_after_prefix in Ha.
  - intros [pre [x [post [E [Hx [Hb Ha]]]]]].
    destruct (strip_decompose s) as [l [r [Es [Hl Hr]]]].
    exists (l ++ pre), x, (post ++ r). repeat split; auto.
    + rewrite Es, E. now rewrite <- !app_assoc.
    + now rewrite word_before_suffix.
    + now rewrite word_after_prefix.
Qed.


(** ** The matcher *)

Lemma lits_ci_prefix (A : Type) (s : text) (K : kont A) :
  forall bef aft g,
    lits s bef aft g K =
    match ci_prefix s aft with
    | Some (x, post) => K (rev x ++ bef) post g
    | None => None
    end.
Proof.
  induction s as [|c s IH]; intros bef aft g; simpl; [reflexivity|].
  destruct aft as [|x aft]; [reflexivity|].
  destruct (ci_char c x); [|reflexivity].
  rewrite IH. destruct (ci_prefix s aft) as [[m post]|]; [|reflexivity].
  simpl. now rewrite <- app_assoc.
Qed.

Lemma ci_char_iff (c x : ascii) :
  ci_char c x = true <-> lower_char x = lower_char c.
Proof.
  unfold ci_char. destruct (ascii_dec (lower_char x) (lower_char c)).
  - tauto.
  - split; [discriminate | contradiction].
Qed.

Lemma ci_prefix_sound (s : text) :
  forall aft x post,
    ci_prefix s aft = Some (x, post) -> aft = x ++ post /\ lower x = lower s.
Proof.
  induction s as [|c s IH]; intros aft x post; simpl.
  - intros E. injection E as <- <-. auto.
  - destruct aft as [|y aft]; [discriminate|].
    destruct (ci_char c y) eqn:Hc; [|discriminate].
    apply ci_char_iff in Hc.
    destruct (ci_prefix s aft) as [[m p]|] eqn:E; [|discriminate].
    intros E'. injection E' as <- <-.
    apply IH in E as [-> E]. simpl. now rewrite Hc, E.
Qed.

Lemma ci_prefix_complete (s : text) :
  forall x post, lower x = lower s -> ci_prefix s (x ++ post) = Some (x, post).
Proof.
  induction s as [|c s IH]; intros x post; simpl.
  - destruct x; [reflexivity | discriminate].
  - destruct x as [|y x]; [discriminate|]. simpl.
    intros E. injection E as E1 E2.
    apply ci_char_iff in E1. rewrite E1. now rewrite (IH x post E2).
Qed.

Lemma ci_prefix_iff (s aft x post : text) :
  ci_prefix s aft = Some (x, post) <-> aft = x ++ post /\ lower x = lower s.
Proof.
  split; [apply ci_prefix_sound|].
  intros [-> E]. now apply ci_prefix_complete.
Qed.

Lemma one_of_some (A : Type) (l : list text) (K : kont A) bef aft g :
  l <> [] ->
  run (one_of l) bef aft g K <> None <->
  exists kw, In kw l /\ lits kw bef aft g K <> None.
Proof.
  induction l as [|x l IH]; [congruence|]. intros _.
  destruct l as [|y l].
  - simpl. split.
    + intros H. exists x. auto.
    + intros [kw [[<-|[]] H]]. exact H.
  - change (one_of (x :: y :: l)) with (Alt (Lit x) (one_of (y :: l))).
    cbn [run]. split.
    + destruct (lits x bef aft g K) eqn:E.
      * intros _. exists x. split; [now left | congruence].
      * intros H. apply IH in H; [|discriminate].
        destruct H as [kw [Hin H]]. exists kw. split; [now right | exact H].
    + intros [kw [[<-|Hin] H]].
      * destruct (lits x bef aft g K); [discriminate | contradiction].
      * destruct (lits x bef aft g K); [discriminate|].
        apply IH; [discriminate|]. exists kw. auto.
Qed.

Lemma search_from_some (r : regex) :
  forall aft bef,
    search_from r bef aft <> None <->
    exists pre post, aft = pre ++ post /\ match_here r (rev pre ++ bef) post <> None.
Proof.
  induction aft as [|x aft IH]; intros bef; simpl.
  - destruct (match_here r bef []) eqn:E.
    + split; [|discriminate]. intros _. exists [], []. simpl. split; congruence.
    + split; [congruence|]. intros [pre [post [E1 H]]].
      symmetry in E1. apply app_eq_nil in E1 as [-> ->]. simpl in H. congruence.
  - destruct (match_here r bef (x :: aft)) eqn:E.
    + split; [|discriminate]. intros _. exists [], (x :: aft). simpl.
      split; congruence.
    + rewrite IH. split.
      * intros [pre [post [E1 H]]]. exists (x :: pre), post. simpl.
        rewrite <- app_assoc. simpl. split; [congruence | exact H].
      * intros [pre [post [E1 H]]]. destruct pre as [|y pre].
        -- simpl in *. subst post. congruence.
        -- simpl in E1. injection E1 as <- E1. exists pre, post.
           simpl in H. rewrite <- app_assoc in H. simpl in H. auto.
Qed.

Lemma word_after_lower (t : text) : word_after (lower t) = word_after t.
Proof. destruct t; simpl; [reflexivity | apply word_lower]. Qed.

Lemma word_before_lower (t : text) : word_before (lower t) = word_before t.
Proof. destruct t; simpl; [reflexivity | apply word_lower]. Qed.

Lemma lower_word_ended (x kw : text) :
  lower x = kw -> word_ended kw -> word_ended x.
Proof.
  intros <- [H1 H2]. split.
  - now rewrite word_after_lower in H1.
  - rewrite <- (word_before_lower (rev x)). unfold lower in *.
    now rewrite map_rev.
Qed.

Lemma forbidden_tokens_lower (kw : text) :
  In kw forbidden_tokens -> lower kw = kw /\ word_ended kw.
Proof.
  intros H. repeat (destruct H as [<-|H]; [split; [|split]; reflexivity|]).
  destruct H.
Qed.

Lemma boundary_left (bef x post : text) :
  word_after x = true ->
  at_boundary bef (x ++ post) = negb (word_before bef).
Proof.
  intros H. unfold at_boundary. destruct x as [|c x]; [discriminate|].
  simpl in *. rewrite H. now destruct (word_before bef).
Qed.

Lemma boundary_right (x bef post : text) :
  word_before (rev x) = true ->
  at_boundary (rev x ++ bef) post = negb (word_after post).
Proof.
  intros H. unfold at_boundary. destruct (rev x) as [|c r]; [discriminate|].
  simpl in *. rewrite H. reflexivity.
Qed.

Lemma forbidden_unfold (bef aft : text) :
  match_here _FORBIDDEN bef aft =
  if at_boundary bef aft then
    run (one_of forbidden_tokens) bef aft []
      (fun b a g =>
         if at_boundary b a then
           Some (Match b a ((1, rev (firstn (length b - length bef) b)) :: g))
         else None)
  else None.
Proof. reflexivity. Qed.

Lemma forbidden_here (bef aft : text) :
  match_here _FORBIDDEN bef aft <> None <->
  exists kw x post,
    In kw forbidden_tokens /\ aft = x ++ post /\ lower x = kw /\
    word_before bef = false /\ word_after post = false.
Proof.
  rewrite forbidden_unfold. split.
  - destruct (at_boundary bef aft) eqn:B; [|congruence].
    intros H. apply one_of_some in H; [|discriminate].
    destruct H as [kw [Hin H]]. rewrite lits_ci_prefix in H.
    destruct (ci_prefix kw aft) as [[x post]|] eqn:E; [|congruence].
    apply ci_prefix_iff in E as [-> E].
    destruct (forbidden_tokens_lower Hin) as [L W]. rewrite L in E.
    pose proof (@lower_word_ended _ _ E W) as [W1 W2].
    rewrite boundary_left in B by exact W1.
    rewrite boundary_right in H by exact W2.
    exists kw, x, post. repeat split; auto.
    + now apply negb_true_iff.
    + destruct (word_after post); [cbn in H; congruence | reflexivity].
  - intros [kw [x [post [Hin [-> [E [Hb Ha]]]]]]].
    destruct (forbidden_tokens_lower Hin) as [L W].
    pose proof (@lower_word_ended _ _ E W) as [W1 W2].
    rewrite boundary_left by exact W1. rewrite Hb. cbn [negb].
    apply one_of_some; [discriminate|]. exists kw. split; [exact Hin|].
    rewrite lits_ci_prefix.
    assert (ci_prefix kw (x ++ post) = Some (x, post)) as ->
        by (apply ci_prefix_iff; split; [reflexivity | congruence]).
    rewrite boundary_right by exact W2. rewrite Ha. cbn [negb]. discriminate.
Qed.

Lemma forbidden_search (s : text) :
  search _FORBIDDEN s <> None <-> contains_forbidden s.
Proof.
  unfold search. rewrite search_from_some. split.
  - intros [pre [aft [E H]]]. apply forbidden_here in H.
    destruct H as [kw [x [post [Hin [-> [L [Hb Ha]]]]]]].
    exists kw. split; [exact Hin|]. exists pre, x, post.
    rewrite app_nil_r in Hb. auto.
  - intros [kw [Hin [pre [x [post [E [L [Hb Ha]]]]]]]].
    exists pre, (x ++ post). split; [exact E|]. apply forbidden_here.
    exists kw, x, post. rewrite app_nil_r. auto.
Qed.

Lemma contains_forbidden_strip (s : text) :
  contains_forbidden s <-> contains_forbidden (strip s).
Proof.
  unfold contains_forbidden. split; intros [kw [Hin H]]; exists kw;
    (split; [exact Hin|]); revert H; apply occurs_strip;
    intros x L; apply (@lower_word_ended _ _ L);
    apply (forbidden_tokens_lower Hin).
Qed.

Lemma occurs_nonempty (core : text -> Prop) (s : text) :
  (forall x, core x -> word_ended x) -> occurs core s -> s <> [].
Proof.
  intros Hc [pre [x [post [E [Hx _]]]]] ->.
  apply Hc in Hx. destruct Hx as [Hx _].
  symmetry in E. apply app_eq_nil in E as [_ E].
  apply app_eq_nil in E as [-> _]. discriminate.
Qed.

(** C1. A query text that contains one of the forbidden tokens as a whole
    word, in any letter case and at any place, is rejected with 403
    "Forbidden SQL keyword", whatever its head verb and whatever objects it
    names. *)
Theorem forbidden_keyword_rejected (ord : set_order) (query : text) :
  contains_forbidden query ->
  _validate_query ord query =
  Raise (HTTPException 403 (T "Forbidden SQL keyword")).
Proof.
  intros H. apply contains_forbidden_strip in H.
  assert (strip query <> []) as Hne.
  { destruct H as [kw [Hin H]]. revert H. apply occurs_nonempty.
    intros x L. apply (@lower_word_ended _ _ L).
    apply (forbidden_tokens_lower Hin). }
  apply forbidden_search in H. unfold _validate_query.
  destruct (strip query) as [|c q]; [congruence|].
  destruct (search _FORBIDDEN (c :: q)); [reflexivity | congruence].
Qed.


Lemma span_app (p : ascii -> bool) (a b : text) :
  forallb p a = true ->
  match b with [] => True | c :: _ => p c = false end ->
  span p (a ++ b) = (a, b).
Proof.
  intros Ha Hb. induction a as [|c a IH]; simpl in *.
  - destruct b as [|c b]; [reflexivity|]. simpl. now rewrite Hb.
  - apply andb_true_iff in Ha as [H1 H2]. rewrite H1. now rewrite IH.
Qed.

Lemma space_first_rstrip (rest : text) :
  space_first rest -> space_first (rstrip rest).
Proof.
  intros H. destruct (rstrip_prefix rest) as [ws [E _]].
  destruct (rstrip rest) as [|c r]; [exact I|].
  rewrite E in H. exact H.
Qed.

Lemma first_token_strip (query tok : text) :
  first_token query tok ->
  exists rest, strip query = tok ++ rest /\ space_first rest /\
               tok <> [] /\ forallb (fun c => negb (is_space c)) tok = true.
Proof.
  intros [l [rest [-> [Hl [Hne [Htok Hrest]]]]]].
  exists (rstrip rest). split; [|auto using space_first_rstrip].
  rewrite strip_rstrip.
  destruct tok as [|y tok']; [congruence|].
  assert (is_space y = false) as Hy.
  { simpl in Htok. apply andb_true_iff in Htok as [H _].
    now apply negb_true_iff. }
  simpl. rewrite dropwhile_app_stop by exact Hy.
  rewrite (dropwhile_all _ _ Hl). simpl.
  destruct (exists_last Hne) as [t [z E]].
  change (y :: tok' ++ rest) with ((y :: tok') ++ rest).
  change (y :: tok' ++ rstrip rest) with ((y :: tok') ++ rstrip rest).
  rewrite E. rewrite <- !app_assoc.
  apply rstrip_app_stop.
  rewrite forallb_forall in Htok. apply negb_true_iff, Htok.
  rewrite E. apply in_or_app. right. now left.
Qed.

Lemma first_token_head (query tok : text) :
  first_token query tok ->
  strip query <> [] /\ nth_error (split_none_1 (strip query)) 0 = Some tok.
Proof.
  intros H. destruct (first_token_strip H) as [rest [E [Hr [Hne Htok]]]].
  rewrite E. destruct tok as [|y tok']; [congruence|].
  split; [discriminate|].
  assert (is_space y = false) as Hy.
  { simpl in Htok. apply andb_true_iff in Htok as [H1 _].
    now apply negb_true_iff. }
  unfold split_none_1.
  change ((y :: tok') ++ rest) with (y :: tok' ++ rest).
  cbn [dropwhile]. rewrite Hy.
  change (y :: tok' ++ rest) with ((y :: tok') ++ rest).
  rewrite span_app; [|exact Htok|].
  - destruct (dropwhile is_space rest); reflexivity.
  - destruct rest as [|c r]; [exact I|]. simpl in Hr. now rewrite Hr.
Qed.

Lemma not_contains_forbidden (query : text) :
  ~ contains_forbidden query -> search _FORBIDDEN (strip query) = None.
Proof.
  intros H. destruct (search _FORBIDDEN (strip query)) eqn:E; [|reflexivity].
  exfalso. apply H. apply contains_forbidden_strip. apply forbidden_search.
  congruence.
Qed.

Lemma validate_after_head (ord : set_order) (query tok : text) :
  first_token query tok -> ~ contains_forbidden query ->
  _validate_query ord query = after_head ord (strip query) tok.
Proof.
  intros Ht Hf. destruct (first_token_head Ht) as [Hne Hh].
  apply not_contains_forbidden in Hf. unfold _validate_query.
  destruct (strip query) as [|c q] eqn:E; [congruence|].
  rewrite Hf, Hh. reflexivity.
Qed.

Ltac other_detail :=
  let E := fresh in
  intros E; injection E as E; vm_compute in E; discriminate.

(** C4. When the text is not caught by the forbidden-keyword filter, a
    first token that, lower-cased, is none of select, insert, update,
    delete, exec, with gets the 403 of the verb check whatever else the
    text holds; a first token that is one of them never does. *)
Theorem head_verb_check (ord : set_order) (query tok : text) :
  first_token query tok -> ~ contains_forbidden query ->
  (~ In (lower tok) allowed_verbs ->
   _validate_query ord query = Raise verb_error) /\
  (In (lower tok) allowed_verbs ->
   _validate_query ord query <> Raise verb_error).
Proof.
  intros Ht Hf. rewrite (validate_after_head ord Ht Hf). unfold after_head.
  split; intros Hv.
  - assert (mem (lower tok) allowed_verbs = false) as ->; [|reflexivity].
    destruct (mem (lower tok) allowed_verbs) eqn:E; [|reflexivity].
    apply mem_In in E. contradiction.
  - apply mem_In in Hv. rewrite Hv. cbn [negb].
    destruct (find _ _); [other_detail|].
    destruct (text_eqb _ _); [|discriminate].
    destruct (search _ _); [|other_detail].
    destruct (group _ _); [|other_detail].
    destruct (negb _); [other_detail | discriminate].
Qed.

(** C5 (as amended). A request whose query text is empty or all white
    space is answered 400 "Empty query" by the validator, before any other
    check of the validator and before any call on the driver; the auth
    guard runs first, so the request gets its 401 instead when a secret is
    configured and the token is missing or wrong. *)
Theorem empty_query_rejected (ord : set_order) (env : environ) (drv : driver)
    (req : SqlRequest) (x_token : option text) :
  forallb is_space (query req) = true ->
  _validate_query ord (query req) =
    Raise (HTTPException 400 (T "Empty query")) /\
  handle ord env drv req x_token =
    (Frame [] false,
     match _require_token env x_token with
     | Return _ => Raise (HTTPException 400 (T "Empty query"))
     | Raise e => Raise e
     end).
Proof.
  intros H. assert (_validate_query ord (query req) =
                    Raise (HTTPException 400 (T "Empty query"))) as E.
  { unfold _validate_query. now rewrite (strip_blank _ H). }
  split; [exact E|]. unfold handle, sql, bind, lift. rewrite E.
  destruct (_require_token env x_token); reflexivity.
Qed.


(** ** The object pattern *)

Lemma span_spec (p : ascii -> bool) (l w r : text) :
  span p l = (w, r) ->
  l = w ++ r /\ forallb p w = true /\
  match r with [] => True | c :: _ => p c = false end.
Proof.
  revert w r. induction l as [|c l IH]; intros w r; simpl.
  - intros E. injection E as <- <-. auto.
  - destruct (p c) eqn:Hc.
    + destruct (span p l) as [a b]. intros E. injection E as <- <-.
      destruct (IH a b eq_refl) as [-> [H1 H2]]. simpl. rewrite Hc. auto.
    + intros E. injection E as <- <-. simpl. rewrite Hc. auto.
Qed.

Lemma span_long (p : ascii -> bool) (a b : text) :
  forall w r, span p (a ++ b) = (w, r) -> length a <= length w ->
              forallb p a = true.
Proof.
  induction a as [|c a IH]; intros w r; simpl; [reflexivity|].
  destruct (p c) eqn:Hc.
  - destruct (span p (a ++ b)) as [w' r'] eqn:E. intros E'.
    injection E' as <- <-. simpl. intros L. apply (IH w' r' eq_refl). lia.
  - intros E. injection E as <- <-. simpl. lia.
Qed.

Lemma more_word_boundary (A : Type) (K : kont A) :
  forall aft x bef g,
    is_word x = true ->
    more CWord (x :: bef) aft g
      (fun b a g' => if at_boundary b a then K b a g' else None) =
    let (w, post) := span is_word aft in K (rev w ++ x :: bef) post g.
Proof.
  induction aft as [|y aft IH]; intros x bef g Hx.
  - simpl. unfold at_boundary. simpl. now rewrite Hx.
  - cbn [more span in_class]. destruct (is_word y) eqn:Hy.
    + rewrite IH by exact Hy.
      destruct (span is_word aft) as [w post]. cbn [rev].
      rewrite <- app_assoc. cbn [app].
      destruct (K (rev w ++ y :: x :: bef) post g) eqn:E; [reflexivity|].
      unfold at_boundary. simpl. now rewrite Hx, Hy.
    + unfold at_boundary. simpl. now rewrite Hx, Hy.
Qed.

Lemma capture_text (w b : text) :
  rev (firstn (length (rev w ++ b) - length b) (rev w ++ b)) = w.
Proof.
  rewrite length_app.
  replace (length (rev w) + length b - length b) with (length (rev w) + 0)
    by lia.
  rewrite firstn_app_2. simpl. rewrite app_nil_r. apply rev_involutive.
Qed.

Lemma obj_unfold (bef aft : text) :
  match_here _OBJ_REF bef aft =
  if at_boundary bef aft then
    lits (T "dbo.") bef aft []
      (fun b a g =>
         match a with
         | x :: a' =>
             if is_word x then
               more CWord (x :: b) a' g
                 (fun b' a'' g' =>
                    if at_boundary b' a'' then
                      Some (Match b' a''
                              ((1, rev (firstn (length b' - length b) b')) :: g'))
                    else None)
             else None
         | [] => None
         end)
  else None.
Proof. reflexivity. Qed.

Lemma obj_match_here (bef aft : text) :
  match_here _OBJ_REF bef aft = obj_at bef aft.
Proof.
  rewrite obj_unfold. unfold obj_at.
  destruct (at_boundary bef aft); [|reflexivity].
  rewrite lits_ci_prefix.
  destruct (ci_prefix (T "dbo.") aft) as [[d rest]|]; [|reflexivity].
  destruct rest as [|x rest]; [reflexivity|].
  cbn [span]. destruct (is_word x) eqn:Hx; [|reflexivity].
  rewrite (more_word_boundary
             (fun b' a'' g' =>
                Some (Match b' a''
                        ((1, rev (firstn (length b' - length (rev d ++ bef)) b'))
                           :: g')))) by exact Hx.
  destruct (span is_word rest) as [w post].
  change (rev w ++ x :: rev d ++ bef) with (rev w ++ [x] ++ rev d ++ bef).
  rewrite app_assoc. change (rev w ++ [x]) with (rev (x :: w)).
  now rewrite capture_text.
Qed.

Lemma dbo_dot_inv (d : text) :
  lower d = T "dbo." ->
  exists a1 a2 a3 a4,
    d = [a1; a2; a3; a4] /\ is_word a1 = true /\ is_word a2 = true /\
    is_word a3 = true /\ is_word a4 = false /\ lower [a1; a2; a3] = T "dbo".
Proof.
  intros H.
  destruct d as [|a1 [|a2 [|a3 [|a4 [|a5 d]]]]]; try discriminate H.
  injection H as H1 H2 H3 H4.
  exists a1, a2, a3, a4. split; [reflexivity|].
  rewrite <- (word_lower a1), <- (word_lower a2), <- (word_lower a3),
    <- (word_lower a4), H1, H2, H3, H4.
  repeat split; try reflexivity. simpl. now rewrite H1, H2, H3.
Qed.

Lemma qualified_word_ended (ident x : text) :
  qualified ident x -> word_ended x.
Proof.
  intros [d [-> [Hd [Hne Hw]]]].
  destruct (dbo_dot_inv _ Hd) as [a1 [a2 [a3 [a4 [-> [H1 _]]]]]].
  split; [exact H1|].
  rewrite rev_app_distr. rewrite word_before_app.
  - destruct (rev ident) as [|c r] eqn:E.
    + apply rev_nil_inv in E. congruence.
    + simpl. rewrite forallb_forall in Hw. apply Hw. apply in_rev.
      rewrite E. now left.
  - intros E. apply rev_nil_inv in E. congruence.
Qed.

Lemma references_strip (s ident : text) :
  references s ident <-> references (strip s) ident.
Proof. apply occurs_strip. intros x. apply qualified_word_ended. Qed.

Lemma obj_at_sound (bef aft : text) (m : rmatch) :
  obj_at bef aft = Some m ->
  exists d w post,
    aft = d ++ w ++ post /\ lower d = T "dbo." /\
    w <> [] /\ forallb is_word w = true /\
    word_before bef = false /\ word_after post = false /\
    m = Match (rev w ++ rev d ++ bef) post [(1, w)].
Proof.
  unfold obj_at. destruct (at_boundary bef aft) eqn:B; [|discriminate].
  destruct (ci_prefix (T "dbo.") aft) as [[d rest]|] eqn:E; [|discriminate].
  apply ci_prefix_sound in E as [-> Hd].
  change (lower (T "dbo.")) with (T "dbo.") in Hd.
  destruct (span is_word rest) as [w post] eqn:S.
  apply span_spec in S as [-> [Hw Hp]].
  destruct w as [|c w]; [discriminate|]. intros E. injection E as <-.
  exists d, (c :: w), post. repeat split; auto.
  - discriminate.
  - destruct (dbo_dot_inv _ Hd) as [a1 [a2 [a3 [a4 [-> [H1 _]]]]]].
    unfold at_boundary in B. simpl in B. rewrite H1 in B.
    now destruct (word_before bef).
  - destruct post; [reflexivity | exact Hp].
Qed.

Lemma obj_at_complete (bef d w post : text) :
  lower d = T "dbo." -> w <> [] -> forallb is_word w = true ->
  word_before bef = false -> word_after post = false ->
  obj_at bef (d ++ w ++ post) =
  Some (Match (rev w ++ rev d ++ bef) post [(1, w)]).
Proof.
  intros Hd Hne Hw Hb Ha. unfold obj_at.
  destruct (dbo_dot_inv _ Hd) as [a1 [a2 [a3 [a4 [E [H1 _]]]]]].
  assert (at_boundary bef (d ++ w ++ post) = true) as ->.
  { rewrite E. unfold at_boundary. simpl. now rewrite Hb, H1. }
  rewrite ci_prefix_complete by exact Hd.
  rewrite span_app; [|exact Hw|].
  - destruct w; [congruence | reflexivity].
  - destruct post; [exact I | exact Ha].
Qed.


(** ** The scan for object references *)

Lemma scan_zero (r : regex) (bef aft : text) :
  scan r bef aft 0 =
  match match_here r bef aft with
  | Some m =>
      m :: match aft with
           | x :: aft' =>
               scan r (x :: bef) aft' (length (m_before m) - length bef - 1)
           | [] => []
           end
  | None =>
      match aft with
      | x :: aft' => scan r (x :: bef) aft' 0
      | [] => []
      end
  end.
Proof. destruct aft; reflexivity. Qed.

Lemma rev_cons_app (x : ascii) (bef aft : text) :
  rev (x :: bef) ++ aft = rev bef ++ x :: aft.
Proof. simpl. now rewrite <- app_assoc. Qed.

Lemma here_sound (bef aft : text) (m : rmatch) :
  obj_at bef aft = Some m ->
  exists w, m_groups m = [(1, w)] /\ references (rev bef ++ aft) w.
Proof.
  intros H. apply obj_at_sound in H.
  destruct H as [d [w [post [-> [Hd [Hne [Hw [Hb [Ha ->]]]]]]]]].
  exists w. split; [reflexivity|].
  exists (rev bef), (d ++ w), post. rewrite rev_involutive.
  rewrite <- app_assoc. repeat split; auto. exists d. auto.
Qed.

Lemma scan_sound :
  forall aft bef skip m,
    In m (scan _OBJ_REF bef aft skip) ->
    exists w, m_groups m = [(1, w)] /\ references (rev bef ++ aft) w.
Proof.
  induction aft as [|x aft IH]; intros bef skip m.
  - destruct skip as [|k]; [|intros []].
    rewrite scan_zero, obj_match_here.
    destruct (obj_at bef []) eqn:E; [|intros []].
    intros [<-|[]]. now apply here_sound.
  - destruct skip as [|k].
    + rewrite scan_zero, obj_match_here.
      destruct (obj_at bef (x :: aft)) eqn:E.
      * intros [<-|H]; [now apply here_sound|].
        rewrite <- rev_cons_app. now apply IH in H.
      * intros H. rewrite <- rev_cons_app. now apply IH in H.
    + simpl. intros H. rewrite <- rev_cons_app. now apply IH in H.
Qed.

Lemma word_before_last (y : text) (b : text) :
  y <> [] -> forallb is_word y = true -> word_before (rev y ++ b) = true.
Proof.
  intros Hne Hw. destruct (rev y) as [|c r] eqn:E.
  - apply rev_nil_inv in E. congruence.
  - simpl. rewrite forallb_forall in Hw. apply Hw, in_rev. rewrite E. now left.
Qed.

Section Reference.
Variables d ident post : text.
Hypothesis Hd : lower d = T "dbo.".
Hypothesis Hne : ident <> [].
Hypothesis Hw : forallb is_word ident = true.
Hypothesis Ha : word_after post = false.

(** A match that starts before the reference and runs into it is
    [dbo.dbo]: its identifier is the reference's own qualifier. *)
Lemma overlap_is_qualifier (pre bef : text) (m : rmatch) :
  pre <> [] ->
  word_before (rev pre ++ bef) = false ->
  obj_at bef (pre ++ d ++ ident ++ post) = Some m ->
  length pre <= length (m_before m) - length bef - 1 ->
  exists w, m_groups m = [(1, w)] /\ lower w = T "dbo".
Proof.
  intros Hpre Hb E L. apply obj_at_sound in E.
  destruct E as [d0 [w [post0 [E [Hd0 [Hwne [Hww [_ [Hp0 ->]]]]]]]]].
  exists w. split; [reflexivity|]. simpl in L.
  rewrite !length_app, !length_rev in L.
  assert (span is_word (w ++ post0) = (w, post0)) as S.
  { apply span_app; [exact Hww|]. destruct post0; [exact I | exact Hp0]. }
  destruct (dbo_dot_inv _ Hd0) as [b1 [b2 [b3 [b4 [-> [B1 [B2 [B3 [B4 _]]]]]]]]].
  destruct (dbo_dot_inv _ Hd) as [a1 [a2 [a3 [a4 [Ed [A1 [A2 [A3 [A4 Al]]]]]]]]].
  simpl in L.
  destruct pre as [|p1 [|p2 [|p3 [|p4 pre']]]]; [congruence| | | |].
  - simpl in E. injection E as -> _. simpl in Hb. congruence.
  - simpl in E. injection E as -> -> _. simpl in Hb. congruence.
  - simpl in E. injection E as -> -> -> _. simpl in Hb. congruence.
  - simpl in E. injection E as -> -> -> -> E.
    destruct pre' as [|p5 pre'].
    + simpl in E. rewrite <- E in S. rewrite Ed in S. simpl in S.
      rewrite A1, A2, A3, A4 in S. injection S as <- _. exact Al.
    + exfalso. rewrite <- E in S.
      assert (forallb is_word (p5 :: pre') = true) as Hall.
      { apply (span_long _ _ _ S). simpl in *. lia. }
      replace (rev (b1 :: b2 :: b3 :: b4 :: p5 :: pre') ++ bef)
        with (rev (p5 :: pre') ++ [b4; b3; b2; b1] ++ bef) in Hb.
      * rewrite word_before_last in Hb; [discriminate | discriminate | exact Hall].
      * change (b1 :: b2 :: b3 :: b4 :: p5 :: pre')
          with ([b1; b2; b3; b4] ++ p5 :: pre').
        rewrite rev_app_distr. now rewrite <- app_assoc.
Qed.

Lemma scan_finds :
  forall pre bef skip,
    skip <= length pre ->
    word_before (rev pre ++ bef) = false ->
    exists m w,
      In m (scan _OBJ_REF bef (pre ++ d ++ ident ++ post) skip) /\
      m_groups m = [(1, w)] /\ (w = ident \/ lower w = T "dbo").
Proof.
  induction pre as [|c pre IH]; intros bef skip L Hb.
  - simpl in L. assert (skip = 0) as -> by lia. simpl in Hb.
    cbn [app]. rewrite scan_zero, obj_match_here.
    rewrite obj_at_complete by assumption.
    eexists. exists ident. split; [now left|]. split; [reflexivity | now left].
  - assert (word_before (rev pre ++ c :: bef) = false) as Hb'
        by (now rewrite <- rev_cons_app).
    destruct skip as [|k].
    + rewrite scan_zero, obj_match_here.
      destruct (obj_at bef ((c :: pre) ++ d ++ ident ++ post)) as [m|] eqn:E.
      * destruct (le_gt_dec (length (m_before m) - length bef - 1) (length pre))
          as [Hle|Hgt].
        -- destruct (IH (c :: bef) _ Hle Hb') as [m' [w [Hin H]]].
           exists m', w. split; [right; exact Hin | exact H].
        -- destruct (@overlap_is_qualifier (c :: pre) bef m) as [w [Hg Hl]];
             try assumption; [discriminate|].
           exists m, w. split; [now left | auto].
      * destruct (IH (c :: bef) 0 (Nat.le_0_l _) Hb') as [m' [w [Hin H]]].
        exists m', w. split; [exact Hin | exact H].
    + simpl in L. destruct (IH (c :: bef) k) as [m' [w [Hin H]]];
        [lia | exact Hb' |].
      exists m', w. split; [exact Hin | exact H].
Qed.
End Reference.

Lemma collected_sound (q o : text) :
  In o (collected q) ->
  exists w, o = T "dbo." ++ w /\ references q w.
Proof.
  unfold collected, finditer. rewrite in_map_iff. intros [m [<- H]].
  apply scan_sound in H as [w [-> H]]. exists w. split; [reflexivity | exact H].
Qed.

Lemma collected_complete (q ident : text) :
  references q ident ->
  In (T "dbo." ++ ident) (collected q) \/
  exists w, lower w = T "dbo" /\ In (T "dbo." ++ w) (collected q).
Proof.
  intros [pre [x [post [-> [[d [-> [Hd [Hne Hw]]]] [Hb Ha]]]]]].
  destruct (@scan_finds d ident post Hd Hne Hw Ha pre [] 0) as [m [w [Hin [Hg H]]]];
    [lia | now rewrite app_nil_r |].
  rewrite <- app_assoc.
  assert (In (T "dbo." ++ w) (collected (pre ++ d ++ ident ++ post))) as Hc.
  { unfold collected, finditer. apply in_map_iff. exists m.
    split; [now rewrite Hg | exact Hin]. }
  destruct H as [->|H]; [now left | right; exists w; auto].
Qed.


(** ** The allow-list check *)

Lemma not_allowed_iff (o : text) :
  not_allowed o = true <-> ~ In o allowed_names.
Proof.
  unfold not_allowed, allowed_names. rewrite andb_true_iff, !negb_true_iff.
  rewrite in_app_iff, <- !mem_In.
  destruct (mem o _ALLOWED_OBJECTS), (mem o _ALLOWED_PROCS);
    intuition congruence.
Qed.

Lemma qualifier_not_allowed (w : text) :
  lower w = T "dbo" -> ~ In (T "dbo." ++ w) allowed_names.
Proof.
  intros H Hin. apply (f_equal (@length ascii)) in H.
  unfold lower in H. rewrite length_map in H.
  assert (length (T "dbo." ++ w) = 7) as L
      by (rewrite length_app, H; reflexivity).
  repeat (destruct Hin as [E|Hin];
          [rewrite <- E in L; vm_compute in L; discriminate L|]).
  destruct Hin.
Qed.

Lemma object_check_rejects (ord : set_order) (l : list text) (o : text) :
  set_iteration ord -> In o l -> not_allowed o = true ->
  exists obj, find not_allowed (ord l) = Some obj /\
              In obj l /\ not_allowed obj = true.
Proof.
  intros Hord Hin Hn. destruct (find not_allowed (ord l)) as [obj|] eqn:E.
  - apply find_some in E as [H1 H2]. apply (Hord l) in H1. eauto.
  - rewrite (find_none _ _ E o) in Hn; [discriminate|]. now apply (Hord l).
Qed.

Lemma object_check_passes (ord : set_order) (l : list text) :
  set_iteration ord ->
  (forall o, In o l -> ~ In o allowed_names -> False) ->
  find not_allowed (ord l) = None.
Proof.
  intros Hord H. destruct (find not_allowed (ord l)) as [obj|] eqn:E;
    [|reflexivity].
  apply find_some in E as [H1 H2]. apply (Hord l) in H1.
  apply not_allowed_iff in H2. destruct (H obj H1 H2).
Qed.

(** A query that passes the earlier checks and holds a reference that is
    not allow-listed is rejected by the object check, and the name in the
    detail is such a reference of the query. *)
Lemma object_check (ord : set_order) (query tok ident : text) :
  set_iteration ord ->
  first_token query tok -> ~ contains_forbidden query ->
  In (lower tok) allowed_verbs ->
  references query ident -> ~ In (T "dbo." ++ ident) allowed_names ->
  exists w,
    _validate_query ord query =
      Raise (HTTPException 403 (T "Object not allowed: " ++ T "dbo." ++ w)) /\
    references query w /\ ~ In (T "dbo." ++ w) allowed_names.
Proof.
  intros Hord Ht Hf Hv Hr Hn. rewrite (validate_after_head ord Ht Hf).
  unfold after_head. apply mem_In in Hv. rewrite Hv. cbn [negb].
  apply references_strip in Hr.
  assert (exists o, In o (collected (strip query)) /\ not_allowed o = true)
    as [o [Hin Ho]].
  { destruct (collected_complete Hr) as [H|[w [Hl H]]].
    - exists (T "dbo." ++ ident). split; [exact H|]. now apply not_allowed_iff.
    - exists (T "dbo." ++ w). split; [exact H|].
      apply not_allowed_iff. now apply qualifier_not_allowed. }
  destruct (@object_check_rejects ord _ _ Hord Hin Ho) as [obj [-> [Hc Hna]]].
  apply collected_sound in Hc as [w [-> Hw]].
  exists w. split; [reflexivity|]. split.
  - now apply references_strip.
  - now apply not_allowed_iff.
Qed.

(** C2 (as amended). Whatever order the set of collected names is visited
    in: a query that is not empty, holds no forbidden keyword
    and has an allowed head verb, and that refers anywhere to [dbo.ident]
    (the qualifier in any letter case) with [dbo.ident] in neither
    allow-list, is rejected with 403 "Object not allowed: dbo.w", where
    [dbo.w] is a reference of the query that is in neither allow-list. *)
Theorem disallowed_object_rejected (ord : set_order) (query tok ident : text) :
  set_iteration ord ->
  first_token query tok -> ~ contains_forbidden query ->
  In (lower tok) allowed_verbs ->
  references query ident -> ~ In (T "dbo." ++ ident) allowed_names ->
  exists w,
    _validate_query ord query =
      Raise (HTTPException 403 (T "Object not allowed: " ++ T "dbo." ++ w)) /\
    references query w /\ ~ In (T "dbo." ++ w) allowed_names.
Proof. apply object_check. Qed.

(** No two allow-listed names differ in letter case only. *)
Lemma allowed_names_case (a b : text) :
  In a allowed_names -> In b allowed_names -> lower a = lower b -> a = b.
Proof.
  intros Ha Hb.
  repeat (destruct Ha as [<-|Ha];
          [ repeat (destruct Hb as [<-|Hb];
                    [first [reflexivity | intros E; discriminate E]|]);
            destruct Hb |]).
  destruct Ha.
Qed.

Lemma variant_not_allowed (ident name : text) :
  In (T "dbo." ++ name) allowed_names ->
  lower ident = lower name -> ident <> name ->
  ~ In (T "dbo." ++ ident) allowed_names.
Proof.
  intros Hn Hl Hne Hin. apply Hne.
  assert (T "dbo." ++ ident = T "dbo." ++ name) as E.
  { apply allowed_names_case; [exact Hin | exact Hn |].
    unfold lower in *. rewrite !map_app. now rewrite Hl. }
  now apply app_inv_head in E.
Qed.

(** C10 (as amended). The allow-lists are looked up with the identifier in
    the letter case the query writes it in.  A query that passes the
    earlier checks and refers to an allow-listed object or procedure with
    its identifier in another letter case is rejected with 403 "Object not
    allowed: ..." (the object check comes before the check of the EXEC
    target, so this is also the answer when the reference is the target of
    EXEC); a query all of whose references are spelled as the allow-lists
    spell them passes the object check. *)
Theorem allow_list_case_sensitive (ord : set_order) (query tok : text) :
  set_iteration ord ->
  first_token query tok -> ~ contains_forbidden query ->
  In (lower tok) allowed_verbs ->
  (forall ident name,
      In (T "dbo." ++ name) allowed_names ->
      lower ident = lower name -> ident <> name ->
      references query ident ->
      exists obj,
        _validate_query ord query =
        Raise (HTTPException 403 (T "Object not allowed: " ++ obj))) /\
  ((forall ident, references query ident ->
                  In (T "dbo." ++ ident) allowed_names) ->
   forall obj,
     _validate_query ord query <>
     Raise (HTTPException 403 (T "Object not allowed: " ++ obj))).
Proof.
  intros Hord Ht Hf Hv. split.
  - intros ident name Hn Hl Hne Hr.
    destruct (@object_check ord query tok ident) as [w [E _]]; auto.
    + now apply (@variant_not_allowed ident name).
    + eauto.
  - intros Hall obj. rewrite (validate_after_head ord Ht Hf).
    unfold after_head. apply mem_In in Hv. rewrite Hv. cbn [negb].
    rewrite (@object_check_passes ord _ Hord).
    + destruct (text_eqb _ _); [|discriminate].
      destruct (search _ _); [|other_detail].
      destruct (group _ _); [|other_detail].
      destruct (negb _); [other_detail | discriminate].
    + intros o Ho Hn. apply collected_sound in Ho as [w [-> Hw]].
      apply Hn, Hall. now apply references_strip.
Qed.


(** ** The validator on concrete requests *)

Ltac by_search :=
  let H := fresh in
  intros H; apply contains_forbidden_strip, forbidden_search in H;
  apply H; vm_compute; reflexivity.

Ltac token_at l rest :=
  exists l, rest; repeat split; try reflexivity; try discriminate.

Lemma forbidden_keyword_rejected_witness :
  contains_forbidden (T "select 1; DROP table dbo.AppMeta") /\
  _validate_query insertion_order (T "select 1; DROP table dbo.AppMeta") =
  Raise (HTTPException 403 (T "Forbidden SQL keyword")).
Proof.
  assert (contains_forbidden (T "select 1; DROP table dbo.AppMeta")) as H.
  { exists (T "drop"). split; [simpl; tauto|].
    exists (T "select 1; "), (T "DROP"), (T " table dbo.AppMeta").
    repeat split. }
  split; [exact H | exact (forbidden_keyword_rejected insertion_order H)].
Defined.

Lemma head_verb_check_witness :
  _validate_query insertion_order (T "merge into dbo.AppMeta using dbo.Snapshots") =
  Raise verb_error.
Proof.
  refine (proj1 (@head_verb_check insertion_order
                   (T "merge into dbo.AppMeta using dbo.Snapshots") (T "merge")
                   _ _) _).
  - token_at (@nil ascii) (T " into dbo.AppMeta using dbo.Snapshots").
  - by_search.
  - vm_compute. intuition discriminate.
Defined.

Lemma empty_query_rejected_witness :
  forallb is_space (query (Request (T "  ") [])) = true /\
  handle insertion_order open_env idle_driver (Request (T "  ") []) None =
  (Frame [] false, Raise (HTTPException 400 (T "Empty query"))).
Proof.
  split; [reflexivity|].
  exact (proj2 (@empty_query_rejected insertion_order open_env idle_driver
                  (Request (T "  ") []) None eq_refl)).
Defined.

(** The auth guard comes before the validator: with a secret configured
    and no token, an empty query is answered 401, not 400. *)
Lemma empty_query_unauthorized :
  forallb is_space (query (Request (T " ") [])) = true /\
  snd (handle insertion_order secret_env idle_driver (Request (T " ") []) None) =
    Raise (HTTPException 401 (T "Unauthorized")) /\
  snd (handle insertion_order secret_env idle_driver (Request (T " ") []) None) <>
    Raise (HTTPException 400 (T "Empty query")).
Proof. split; [reflexivity | split; [reflexivity | discriminate]]. Qed.

Lemma disallowed_object_rejected_witness :
  exists w,
    _validate_query insertion_order
      (T "select * from dbo.AppMeta a join DBO.Secrets s on a.k = s.k") =
      Raise (HTTPException 403 (T "Object not allowed: " ++ T "dbo." ++ w)) /\
    references (T "select * from dbo.AppMeta a join DBO.Secrets s on a.k = s.k") w /\
    ~ In (T "dbo." ++ w) allowed_names.
Proof.
  refine (@disallowed_object_rejected insertion_order
            (T "select * from dbo.AppMeta a join DBO.Secrets s on a.k = s.k")
            (T "select") (T "Secrets") insertion_order_valid _ _ _ _ _).
  - token_at (@nil ascii) (T " * from dbo.AppMeta a join DBO.Secrets s on a.k = s.k").
  - by_search.
  - simpl. tauto.
  - exists (T "select * from dbo.AppMeta a join "), (T "DBO.Secrets"),
      (T " s on a.k = s.k").
    repeat split. exists (T "DBO."). repeat split. discriminate.
  - vm_compute. intuition discriminate.
Defined.

(** Only the schema [dbo] is looked for: a reference qualified by another
    schema is not checked against the allow-lists. *)
Lemma other_schema_not_checked :
  first_token (T "select * from sys.tables") (T "select") /\
  ~ contains_forbidden (T "select * from sys.tables") /\
  In (lower (T "select")) allowed_verbs /\
  ~ In (T "sys.tables") allowed_names /\
  _validate_query insertion_order (T "select * from sys.tables") = Return tt.
Proof.
  split; [token_at (@nil ascii) (T " * from sys.tables")|].
  split; [by_search|].
  split; [simpl; tauto|].
  split; [vm_compute; intuition discriminate | reflexivity].
Qed.

Lemma allow_list_case_sensitive_witness :
  exists obj,
    _validate_query insertion_order (T "select * from dbo.appmeta") =
    Raise (HTTPException 403 (T "Object not allowed: " ++ obj)).
Proof.
  refine (proj1 (@allow_list_case_sensitive insertion_order
                   (T "select * from dbo.appmeta") (T "select")
                   insertion_order_valid _ _ _)
            (T "appmeta") (T "AppMeta") _ _ _ _).
  - token_at (@nil ascii) (T " * from dbo.appmeta").
  - by_search.
  - simpl. tauto.
  - simpl. tauto.
  - reflexivity.
  - discriminate.
  - exists (T "select * from "), (T "dbo.appmeta"), (@nil ascii).
    repeat split. exists (T "dbo."). repeat split. discriminate.
Defined.

(** An EXEC target written in another letter case fails the object check,
    which comes first: the answer is "Object not allowed", not "Procedure
    not allowed". *)
Lemma exec_variant_is_object_error :
  _validate_query insertion_order (T "exec dbo.SP_ITEMAOTOMATIKAYAR") =
    Raise (HTTPException 403 (T "Object not allowed: dbo.SP_ITEMAOTOMATIKAYAR")) /\
  _validate_query insertion_order (T "exec dbo.SP_ITEMAOTOMATIKAYAR") <>
    Raise (HTTPException 403 (T "Procedure not allowed: dbo.SP_ITEMAOTOMATIKAYAR")).
Proof. split; [reflexivity | vm_compute; discriminate]. Qed.

(** "Procedure not allowed" is what a qualifier in another letter case
    gives, the identifier being spelled as the allow-list spells it. *)
Example exec_qualifier_case :
  _validate_query insertion_order (T "EXEC DBO.sp_ItemaOtomatikAyar ?") =
  Raise (HTTPException 403 (T "Procedure not allowed: DBO.sp_ItemaOtomatikAyar")).
Proof. reflexivity. Qed.

(** A match does not start inside an earlier one: of [dbo.dbo.AppMeta]
    the scan collects [dbo.dbo] only. *)
Example nested_qualifier :
  collected (T "select * from dbo.dbo.AppMeta") = [T "dbo.dbo"].
Proof. reflexivity. Qed.

(** [xp_] is forbidden as a word of its own; a longer name that starts
    with it is not caught by the keyword filter. *)
Example xp_prefix_not_a_word :
  search _FORBIDDEN (T "exec xp_cmdshell 'dir'") = None /\
  search _FORBIDDEN (T "exec xp_ 'dir'") <> None.
Proof. split; [reflexivity | discriminate]. Qed.

(** C3. The EXEC reference is searched for anywhere in the text, not at
    the head verb: this query, whose head EXEC runs a procedure that is in
    no allow-list, is accepted. *)
Theorem exec_reference_searched_anywhere :
  _validate_query insertion_order
    (T "exec sp_who; exec dbo.sp_ItemaOtomatikAyar ?") = Return tt.
Proof. reflexivity. Qed.


(** ** Base64 *)

Import Base64.
Unset Implicit Arguments.

Lemma small_complete (n : N) : (n < 256)%N -> In n small.
Proof.
  intros H. unfold small. rewrite <- (N2Nat.id n). apply in_map, in_seq. lia.
Qed.

Lemma for_all_small (P : N -> bool) :
  forallb P small = true -> forall n, (n < 256)%N -> P n = true.
Proof.
  intros H n Hn. rewrite forallb_forall in H. now apply H, small_complete.
Qed.

Lemma for_all_small2 (P : N -> N -> bool) :
  forallb (fun a => forallb (P a) small) small = true ->
  forall a b, (a < 256)%N -> (b < 256)%N -> P a b = true.
Proof.
  intros H a b Ha Hb.
  apply (for_all_small (fun a => forallb (P a) small) H) in Ha.
  now apply (for_all_small _ Ha).
Qed.

Lemma to_N_small (x : byte) : (Byte.to_N x < 256)%N.
Proof. pose proof (Byte.to_N_bounded x). lia. Qed.

(** The four six-bit groups of three bytes. *)
Local Abbreviation s1 a := (N.shiftr a 2).
Local Abbreviation s2 a b := (N.lor (N.shiftl (N.land a 3) 4) (N.shiftr b 4)).
Local Abbreviation s3 b c := (N.lor (N.shiftl (N.land b 15) 2) (N.shiftr c 6)).
Local Abbreviation s4 c := (N.land c 63).

Lemma s1_ok (a : N) : (a < 256)%N -> sextet_ok (s1 a) = true.
Proof. apply (for_all_small (fun a => sextet_ok (s1 a))). vm_compute. reflexivity. Qed.

Lemma s4_ok (c : N) : (c < 256)%N -> sextet_ok (s4 c) = true.
Proof. apply (for_all_small (fun a => sextet_ok (s4 a))). vm_compute. reflexivity. Qed.

Lemma s2_ok (a b : N) : (a < 256)%N -> (b < 256)%N -> sextet_ok (s2 a b) = true.
Proof.
  apply (for_all_small2 (fun a b => sextet_ok (s2 a b))). vm_compute. reflexivity.
Qed.

Lemma s3_ok (b c : N) : (b < 256)%N -> (c < 256)%N -> sextet_ok (s3 b c) = true.
Proof.
  apply (for_all_small2 (fun a b => sextet_ok (s3 a b))). vm_compute. reflexivity.
Qed.

Lemma s2_last_ok (a : N) :
  (a < 256)%N -> sextet_ok (N.shiftl (N.land a 3) 4) = true.
Proof.
  apply (for_all_small (fun a => sextet_ok (N.shiftl (N.land a 3) 4))).
  vm_compute. reflexivity.
Qed.

Lemma s3_last_ok (b : N) :
  (b < 256)%N -> sextet_ok (N.shiftl (N.land b 15) 2) = true.
Proof.
  apply (for_all_small (fun a => sextet_ok (N.shiftl (N.land a 15) 2))).
  vm_compute. reflexivity.
Qed.

(** The bytes the decoder puts together from the six-bit groups. *)
Lemma first_byte (a b : N) :
  (a < 256)%N -> (b < 256)%N ->
  N.modulo (N.lor (N.shiftl (s1 a) 2) (N.shiftr (s2 a b) 4)) 256 = a.
Proof.
  intros Ha Hb. apply N.eqb_eq. revert a b Ha Hb.
  apply (for_all_small2
           (fun a b => N.eqb (N.modulo (N.lor (N.shiftl (s1 a) 2) (N.shiftr (s2 a b) 4)) 256) a)).
  vm_compute. reflexivity.
Qed.

Lemma second_byte (a b c : N) :
  (a < 256)%N -> (b < 256)%N -> (c < 256)%N ->
  N.modulo (N.lor (N.shiftl (N.land (s2 a b) 15) 4) (N.shiftr (s3 b c) 2)) 256 = b.
Proof.
  intros Ha Hb Hc.
  assert (N.land (s2 a b) 15 = N.shiftr b 4) as ->.
  { apply N.eqb_eq. revert a b Ha Hb.
    apply (for_all_small2 (fun a b => N.eqb (N.land (s2 a b) 15) (N.shiftr b 4))).
    vm_compute. reflexivity. }
  apply N.eqb_eq. revert b c Hb Hc.
  apply (for_all_small2
           (fun b c => N.eqb (N.modulo (N.lor (N.shiftl (N.shiftr b 4) 4) (N.shiftr (s3 b c) 2)) 256) b)).
  vm_compute. reflexivity.
Qed.

Lemma third_byte (b c : N) :
  (b < 256)%N -> (c < 256)%N ->
  N.modulo (N.lor (N.shiftl (N.land (s3 b c) 3) 6) (s4 c)) 256 = c.
Proof.
  intros Hb Hc. apply N.eqb_eq. revert b c Hb Hc.
  apply (for_all_small2
           (fun b c => N.eqb (N.modulo (N.lor (N.shiftl (N.land (s3 b c) 3) 6) (s4 c)) 256) c)).
  vm_compute. reflexivity.
Qed.

Lemma first_byte_last (a : N) :
  (a < 256)%N ->
  N.modulo (N.lor (N.shiftl (s1 a) 2) (N.shiftr (N.shiftl (N.land a 3) 4) 4)) 256 = a.
Proof.
  intros Ha. apply N.eqb_eq. revert a Ha.
  apply (for_all_small
           (fun a => N.eqb (N.modulo (N.lor (N.shiftl (s1 a) 2)
                               (N.shiftr (N.shiftl (N.land a 3) 4) 4)) 256) a)).
  vm_compute. reflexivity.
Qed.

Lemma second_byte_last (a b : N) :
  (a < 256)%N -> (b < 256)%N ->
  N.modulo (N.lor (N.shiftl (N.land (s2 a b) 15) 4)
     (N.shiftr (N.shiftl (N.land b 15) 2) 2)) 256 = b.
Proof.
  intros Ha Hb. apply N.eqb_eq. revert a b Ha Hb.
  apply (for_all_small2
           (fun a b => N.eqb (N.modulo (N.lor (N.shiftl (N.land (s2 a b) 15) 4)
                                 (N.shiftr (N.shiftl (N.land b 15) 2) 2)) 256) b)).
  vm_compute. reflexivity.
Qed.

Lemma to_byte_mod (n : N) (x : byte) : N.modulo n 256 = Byte.to_N x -> to_byte n = x.
Proof. intros H. unfold to_byte. rewrite H. now rewrite Byte.of_to_N. Qed.

(** One step of the decoder on a character of the alphabet. *)
Lemma step_sextet (v : N) (rest : text) (quad_pos : nat) (leftchar : N)
    (pads : nat) (out : list byte) :
  sextet_ok v = true ->
  a2b_base64 (b2a v :: rest) quad_pos leftchar pads out =
  match quad_pos with
  | 0 => a2b_base64 rest 1 v 0 out
  | 1 =>
      a2b_base64 rest 2 (N.land v 15) 0
        (to_byte (N.lor (N.shiftl leftchar 2) (N.shiftr v 4)) :: out)
  | 2 =>
      a2b_base64 rest 3 (N.land v 3) 0
        (to_byte (N.lor (N.shiftl leftchar 4) (N.shiftr v 2)) :: out)
  | _ =>
      a2b_base64 rest 0 0 0 (to_byte (N.lor (N.shiftl leftchar 6) v) :: out)
  end.
Proof.
  unfold sextet_ok. rewrite !andb_true_iff.
  intros [[[H1 H2] H3] _]. apply N.ltb_lt in H1. apply N.eqb_eq in H2.
  cbn [a2b_base64]. destruct (ascii_dec (b2a v) pad); [discriminate|].
  rewrite H2. assert (N.leb 64 v = false) as -> by (apply N.leb_gt; lia).
  reflexivity.
Qed.

Lemma decode_encode_loop (n : nat) :
  forall data out,
    length data <= n ->
    a2b_base64 (b64encode data) 0 0 0 out = Some (rev out ++ data).
Proof.
  induction n as [|n IH]; intros data out L.
  - destruct data; [|simpl in L; lia]. simpl. now rewrite app_nil_r.
  - destruct data as [|a [|b [|c rest]]].
    + simpl. now rewrite app_nil_r.
    + pose proof (to_N_small a) as Ha.
      cbn [b64encode]. unfold enc1.
      rewrite (step_sextet _ _ _ _ _ _ (s1_ok _ Ha)).
      rewrite (step_sextet _ _ _ _ _ _ (s2_last_ok _ Ha)).
      rewrite (to_byte_mod _ _ (first_byte_last _ Ha)).
      reflexivity.
    + pose proof (to_N_small a) as Ha. pose proof (to_N_small b) as Hb.
      cbn [b64encode]. unfold enc2.
      rewrite (step_sextet _ _ _ _ _ _ (s1_ok _ Ha)).
      rewrite (step_sextet _ _ _ _ _ _ (s2_ok _ _ Ha Hb)).
      rewrite (step_sextet _ _ _ _ _ _ (s3_last_ok _ Hb)).
      rewrite (to_byte_mod _ _ (first_byte _ _ Ha Hb)).
      rewrite (to_byte_mod _ _ (second_byte_last _ _ Ha Hb)).
      simpl. now rewrite <- !app_assoc.
    + pose proof (to_N_small a) as Ha. pose proof (to_N_small b) as Hb.
      pose proof (to_N_small c) as Hc.
      cbn [b64encode]. unfold enc3. cbn [app].
      rewrite (step_sextet _ _ _ _ _ _ (s1_ok _ Ha)).
      rewrite (step_sextet _ _ _ _ _ _ (s2_ok _ _ Ha Hb)).
      rewrite (step_sextet _ _ _ _ _ _ (s3_ok _ _ Hb Hc)).
      rewrite (step_sextet _ _ _ _ _ _ (s4_ok _ Hc)).
      rewrite (to_byte_mod _ _ (first_byte _ _ Ha Hb)).
      rewrite (to_byte_mod _ _ (second_byte _ _ _ Ha Hb Hc)).
      rewrite (to_byte_mod _ _ (third_byte _ _ Hb Hc)).
      rewrite IH by (simpl in L; lia).
      simpl. now rewrite <- !app_assoc.
Qed.

Lemma encode_is_ascii (n : nat) :
  forall data, length data <= n -> forallb is_ascii (b64encode data) = true.
Proof.
  assert (forall v, sextet_ok v = true -> is_ascii (b2a v) = true) as A.
  { intros v H. unfold sextet_ok in H. now apply andb_true_iff in H as [_ H]. }
  induction n as [|n IH]; intros data L.
  - destruct data; [reflexivity | simpl in L; lia].
  - destruct data as [|a [|b [|c rest]]]; [reflexivity| | |].
    + pose proof (to_N_small a) as Ha. cbn [b64encode]. unfold enc1. cbn [forallb].
      rewrite (A _ (s1_ok _ Ha)), (A _ (s2_last_ok _ Ha)). reflexivity.
    + pose proof (to_N_small a) as Ha. pose proof (to_N_small b) as Hb.
      cbn [b64encode]. unfold enc2. cbn [forallb].
      rewrite (A _ (s1_ok _ Ha)), (A _ (s2_ok _ _ Ha Hb)),
        (A _ (s3_last_ok _ Hb)).
      reflexivity.
    + pose proof (to_N_small a) as Ha. pose proof (to_N_small b) as Hb.
      pose proof (to_N_small c) as Hc.
      cbn [b64encode]. unfold enc3. cbn [forallb app].
      rewrite (A _ (s1_ok _ Ha)), (A _ (s2_ok _ _ Ha Hb)),
        (A _ (s3_ok _ _ Hb Hc)), (A _ (s4_ok _ Hc)).
      rewrite IH by (simpl in L; lia). reflexivity.
Qed.

(** Decoding what the encoder wrote gives the bytes back. *)
Lemma decode_encode (data : list byte) :
  b64decode (b64encode data) = Some data.
Proof.
  unfold b64decode. rewrite (encode_is_ascii _ _ (le_n (length data))).
  now rewrite (decode_encode_loop _ _ [] (le_n (length data))).
Qed.

Set Implicit Arguments.


(** ** The parameter adapter *)

Lemma starts_with_iff (p s : text) :
  starts_with p s = true <-> exists post, s = p ++ post.
Proof.
  revert s. induction p as [|a p IH]; intros s; simpl.
  - split; [intros _; now exists s | reflexivity].
  - destruct s as [|b s].
    + split; [discriminate | intros [post E]; discriminate E].
    + destruct (ascii_dec a b) as [<-|Hne].
      * rewrite IH. split; intros [post E]; exists post; congruence.
      * split; [discriminate | intros [post E]; congruence].
Qed.

Lemma contains_iff (needle hay : text) :
  contains needle hay = true <-> exists pre post, hay = pre ++ needle ++ post.
Proof.
  induction hay as [|c hay IH]; simpl.
  - destruct (starts_with needle []) eqn:E.
    + apply starts_with_iff in E as [post E]. split; [|reflexivity].
      intros _. exists [], post. exact E.
    + split; [discriminate|]. intros [pre [post H]].
      destruct pre; [|discriminate H].
      assert (starts_with needle [] = true) by (apply starts_with_iff; eauto).
      congruence.
  - destruct (starts_with needle (c :: hay)) eqn:E.
    + apply starts_with_iff in E as [post E]. split; [|reflexivity].
      intros _. exists [], post. exact E.
    + rewrite IH. split.
      * intros [pre [post H]]. exists (c :: pre), post. simpl. congruence.
      * intros [pre [post H]]. destruct pre as [|x pre].
        -- assert (starts_with needle (c :: hay) = true)
             by (apply starts_with_iff; eauto).
           congruence.
        -- simpl in H. injection H as _ H. eauto.
Qed.

Lemma set_nth_middle (A : Type) (pre : list A) (v x : A) (rest : list A) :
  set_nth (length pre) x (pre ++ v :: rest) = pre ++ x :: rest.
Proof. induction pre as [|y pre IH]; simpl; [reflexivity | now rewrite IH]. Qed.

Lemma nth_error_middle (A : Type) (pre : list A) (v : A) (rest : list A) :
  nth_error (pre ++ v :: rest) (length pre) = Some v.
Proof. induction pre as [|y pre IH]; simpl; [reflexivity | exact IH]. Qed.

(** The index loop changes each element as [adapt_one] does. *)
Lemma adapt_from_map :
  forall rest pre,
    adapt_from (length rest) (length pre) (pre ++ rest) =
    pre ++ map adapt_one rest.
Proof.
  induction rest as [|v rest IH]; intros pre; [reflexivity|].
  cbn [length adapt_from]. rewrite nth_error_middle.
  assert (forall x, adapt_from (length rest) (S (length pre)) (pre ++ x :: rest) =
                    pre ++ x :: map adapt_one rest) as Step.
  { intros x. replace (S (length pre)) with (length (pre ++ [x]))
      by (rewrite length_app; simpl; lia).
    replace (pre ++ x :: rest) with ((pre ++ [x]) ++ rest)
      by (now rewrite <- app_assoc).
    rewrite IH. now rewrite <- app_assoc. }
  destruct v as [| | |s| |]; try apply Step.
  cbn [map adapt_one]. destruct (Base64.b64decode s) as [b|]; [|apply Step].
  rewrite set_nth_middle. apply Step.
Qed.

Lemma adapt_params_unfold (query : text) (params : list value) :
  _adapt_params query params =
  if contains noterules_insert (lower query) then map adapt_one params
  else params.
Proof.
  unfold _adapt_params. fold noterules_insert.
  destruct (contains noterules_insert (lower query)); [|reflexivity].
  destruct params as [|p ps]; [reflexivity|].
  cbn [andb]. apply (adapt_from_map (p :: ps) []).
Qed.

(** C6. For a query whose lower-cased text holds "insert into
    dbo.noterules" and a parameter list that is not empty, the adapter
    keeps the length of the list and treats each parameter by itself: a
    string that base64-decodes becomes the decoded bytes, a string whose
    decoding fails stays as it is, and a parameter that is not a string
    stays as it is.  For every other query, and for an empty list, the
    parameters come back unchanged. *)
Theorem adapt_params_spec (query : text) (params : list value) :
  (recognized query -> params <> [] ->
   length (_adapt_params query params) = length params /\
   forall i p,
     nth_error params i = Some p ->
     (forall s b, p = VStr s -> Base64.b64decode s = Some b ->
                  nth_error (_adapt_params query params) i = Some (VBytes b)) /\
     (forall s, p = VStr s -> Base64.b64decode s = None ->
                nth_error (_adapt_params query params) i = Some (VStr s)) /\
     ((forall s, p <> VStr s) ->
      nth_error (_adapt_params query params) i = Some p)) /\
  (~ recognized query \/ params = [] -> _adapt_params query params = params).
Proof.
  rewrite adapt_params_unfold. split.
  - intros Hr _. apply contains_iff in Hr. rewrite Hr.
    split; [apply length_map|].
    intros i p Hp. rewrite nth_error_map, Hp. cbn [option_map].
    repeat split.
    + intros s b -> E. simpl. now rewrite E.
    + intros s -> E. simpl. now rewrite E.
    + intros H. destruct p; try reflexivity. destruct (H s eq_refl).
  - intros [H| ->].
    + destruct (contains noterules_insert (lower query)) eqn:E; [|reflexivity].
      apply contains_iff in E. contradiction.
    + now destruct (contains noterules_insert (lower query)).
Qed.

Lemma adapt_params_spec_witness :
  length
    (_adapt_params (T "INSERT INTO dbo.NoteRules (Rule) VALUES (?, ?, ?)")
       [VStr (T "QUI="); VStr (T "not base64!"); VInt 7]) = 3.
Proof.
  refine (proj1 (proj1 (@adapt_params_spec
                          (T "INSERT INTO dbo.NoteRules (Rule) VALUES (?, ?, ?)")
                          [VStr (T "QUI="); VStr (T "not base64!"); VInt 7])
                   _ _)).
  - exists [], (T " (rule) values (?, ?, ?)"). reflexivity.
  - discriminate.
Defined.

Example adapt_params_sample :
  _adapt_params (T "INSERT INTO dbo.NoteRules (Rule) VALUES (?, ?, ?)")
    [VStr (T "QUI="); VStr (T "not base64!"); VInt 7] =
  [VBytes [x41; x42]; VStr (T "not base64!"); VInt 7].
Proof. reflexivity. Qed.

(** C7 (as amended). A byte payload submitted as its standard base64
    text, as a parameter of a recognized insert, is decoded by the adapter
    to that payload, and the result encoder turns the payload back into
    the text that was submitted. *)
Theorem base64_round_trip (query : text) (params : list value) (i : nat)
    (payload : list byte) :
  recognized query ->
  nth_error params i = Some (VStr (Base64.b64encode payload)) ->
  nth_error (_adapt_params query params) i = Some (VBytes payload) /\
  nth_error (map _encode_value (_adapt_params query params)) i =
    Some (VStr (Base64.b64encode payload)).
Proof.
  intros Hr Hp. rewrite adapt_params_unfold.
  apply contains_iff in Hr. rewrite Hr.
  assert (nth_error (map adapt_one params) i = Some (VBytes payload)) as E.
  { rewrite nth_error_map, Hp. simpl.
    now rewrite decode_encode. }
  split; [exact E|]. now rewrite nth_error_map, E.
Qed.

Lemma base64_round_trip_witness :
  nth_error
    (map _encode_value
       (_adapt_params (T "INSERT INTO dbo.NoteRules (Rule) VALUES (?)")
          [VStr (Base64.b64encode [x41; x42])])) 0 =
  Some (VStr (T "QUI=")).
Proof.
  refine (proj2 (@base64_round_trip
                   (T "INSERT INTO dbo.NoteRules (Rule) VALUES (?)")
                   [VStr (Base64.b64encode [x41; x42])] 0 [x41; x42] _ _)).
  - exists [], (T " (rule) values (?)"). reflexivity.
  - reflexivity.
Defined.

(** The decoder is lenient: a text whose last character carries unused
    bits decodes, and the payload encodes to another text. *)
Lemma lenient_decoding_loses_text :
  Base64.b64decode (T "QR==") = Some [x41] /\
  _adapt_params (T "insert into dbo.NoteRules (Rule) values (?)")
    [VStr (T "QR==")] = [VBytes [x41]] /\
  map _encode_value
    (_adapt_params (T "insert into dbo.NoteRules (Rule) values (?)")
       [VStr (T "QR==")]) = [VStr (T "QQ==")] /\
  T "QQ==" <> T "QR==".
Proof. repeat split. discriminate. Qed.

(** So does a text with a line break after the padding. *)
Example line_break_is_dropped :
  map _encode_value
    (_adapt_params (T "insert into dbo.NoteRules (Rule) values (?)")
       [VStr (T "QQ==" ++ ["010"%char])]) = [VStr (T "QQ==")].
Proof. reflexivity. Qed.


(** ** The handler *)

Lemma handle_executed (ord : set_order) (env : environ) (drv : driver)
    (req : SqlRequest) (x_token : option text) :
  executed ord env drv req x_token ->
  handle ord env drv req x_token =
  let calls :=
    [ EvExecute (query req) (_adapt_params (query req) (params req));
      EvCursor; EvConnect (_sql_conn_str env) 10 true ] in
  if truthy (description drv) then
    match on_fetchall drv with
    | inr rows =>
        (Frame (EvClose :: EvFetchall :: calls) true,
         Return (rows_form
                   (map col_name
                      (match description drv with Some d => d | None => [] end))
                   (map (map _encode_value) rows)))
    | inl msg =>
        (Frame (EvClose :: EvFetchall :: calls) true,
         Raise (HTTPException 500 msg))
    end
  else
    match on_commit drv with
    | None =>
        (Frame (EvClose :: EvCommit :: calls) true,
         Return (mutation_form
                   (match rowcount drv with Some n => n | None => (-1)%Z end)))
    | Some msg =>
        (Frame (EvClose :: EvCommit :: calls) true,
         Raise (HTTPException 500 msg))
    end.
Proof.
  intros [Ha [Hv [Hc [Hu He]]]].
  unfold handle, sql, sql_body, bind, lift, try_finally, try_except, connect,
    close, emit, outcome, ret, raise.
  rewrite Ha, Hv, Hc, Hu, He. cbn.
  destruct (truthy (description drv)).
  - destruct (on_fetchall drv); cbn; destruct (on_close drv); reflexivity.
  - destruct (on_commit drv); cbn; destruct (on_close drv); reflexivity.
Qed.

(** C8. After a validated statement has been executed, the answer has one
    of two forms.  With a result-set description that is not empty: the
    column names in order, every fetched row with each cell passed through
    the result encoder, and the number of rows; no [affected_rows], and no
    commit.  Otherwise: a commit, empty columns and rows, and
    [affected_rows], the count the driver reports or -1 when it reports
    none; no [rowcount]. *)
Theorem sql_result_forms (ord : set_order) (env : environ) (drv : driver)
    (req : SqlRequest) (x_token : option text) :
  executed ord env drv req x_token ->
  match description drv with
  | Some (c :: cols) =>
      forall rows,
        on_fetchall drv = inr rows ->
        snd (handle ord env drv req x_token) =
          Return (rows_form (map col_name (c :: cols))
                    (map (map _encode_value) rows)) /\
        lookup (T "rowcount")
          (rows_form (map col_name (c :: cols)) (map (map _encode_value) rows)) =
          Some (JInt (Z.of_nat (length rows))) /\
        lookup (T "affected_rows")
          (rows_form (map col_name (c :: cols)) (map (map _encode_value) rows)) =
          None /\
        ~ In EvCommit (trace (fst (handle ord env drv req x_token)))
  | _ =>
      on_commit drv = None ->
      let affected :=
        match rowcount drv with Some n => n | None => (-1)%Z end in
      snd (handle ord env drv req x_token) = Return (mutation_form affected) /\
      lookup (T "affected_rows") (mutation_form affected) =
        Some (JInt affected) /\
      lookup (T "rowcount") (mutation_form affected) = None /\
      In EvCommit (trace (fst (handle ord env drv req x_token)))
  end.
Proof.
  intros H. rewrite (handle_executed H).
  destruct (description drv) as [[|c cols]|]; cbn [truthy].
  - intros ->. cbn. repeat split. now right; left.
  - intros rows ->. unfold rows_form. cbn. rewrite length_map.
    repeat split.
    intros [E|[E|[E|[E|[E|[]]]]]]; discriminate E.
  - intros ->. cbn. repeat split. now right; left.
Qed.

Lemma sql_result_forms_witness :
  executed insertion_order open_env sample_driver sample_request None /\
  snd (handle insertion_order open_env sample_driver sample_request None) =
  Return (rows_form [T "Name"; T "Payload"] [[VStr (T "r1"); VStr (T "QQ==")]]).
Proof.
  assert (executed insertion_order open_env sample_driver
            sample_request None) as H by (repeat split).
  split; [exact H|].
  exact (proj1 (@sql_result_forms insertion_order open_env sample_driver
                  sample_request None H _ eq_refl)).
Defined.

(** C9. Whatever the driver answers, a connection that was acquired is
    given back on every way out of the handler: no connection is held when
    the handler is left, [close] is the last call made on the driver, and
    once the connection has been asked for, a failure leaves the handler as
    an HTTP 500. *)
Theorem connection_released (ord : set_order) (env : environ) (drv : driver)
    (req : SqlRequest) (x_token : option text) :
  held_after false (rev (trace (fst (handle ord env drv req x_token)))) = false /\
  (forall s t,
      In (EvConnect s t true) (trace (fst (handle ord env drv req x_token))) ->
      hd_error (trace (fst (handle ord env drv req x_token))) = Some EvClose) /\
  (trace (fst (handle ord env drv req x_token)) <> [] ->
   forall e,
     snd (handle ord env drv req x_token) = Raise e ->
     exists detail, e = HTTPException 500 detail).
Proof.
  unfold handle, sql, sql_body, bind, lift, try_finally, try_except, connect,
    close, emit, outcome, ret, raise.
  destruct (_require_token env x_token) as [[]|e1];
    [|cbn; repeat split; [intros s t [] | congruence]].
  destruct (_validate_query ord (query req)) as [[]|e2];
    [|cbn; repeat split; [intros s t [] | congruence]].
  destruct (on_connect drv (_sql_conn_str env) 10) as [m1|];
    [cbn; repeat split;
     [intros s t [E|[]]; discriminate E
     | intros _ e E; injection E as <-; eauto]|].
  destruct (on_cursor drv) as [m2|];
    [cbn; destruct (on_close drv); cbn; repeat split;
     intros _ e E; injection E as <-; eauto|].
  destruct (on_execute drv (query req)
              (_adapt_params (query req) (params req))) as [m3|];
    [cbn; destruct (on_close drv); cbn; repeat split;
     intros _ e E; injection E as <-; eauto|].
  destruct (truthy (description drv)).
  - destruct (on_fetchall drv) as [m4|rows];
      cbn; destruct (on_close drv); cbn; repeat split;
      intros _ e E; try discriminate E; injection E as <-; eauto.
  - destruct (on_commit drv) as [m5|];
      cbn; destruct (on_close drv); cbn; repeat split;
      intros _ e E; try discriminate E; injection E as <-; eauto.
Qed.

(** * Further properties of the code *)

(** ** The verdicts of the validator *)

Lemma dropwhile_head (p : ascii -> bool) (s : text) (c : ascii) (r : text) :
  dropwhile p s = c :: r -> p c = false.
Proof.
  induction s as [|x s IH]; simpl; [discriminate|].
  destruct (p x) eqn:Hx; [exact IH|]. intros E. injection E as -> _. exact Hx.
Qed.

Lemma dropwhile_app_all (p : ascii -> bool) (a b : text) :
  forallb p a = true -> dropwhile p (a ++ b) = dropwhile p b.
Proof.
  induction a as [|c a IH]; simpl; [reflexivity|].
  intros H. apply andb_true_iff in H as [H1 H2]. rewrite H1. now apply IH.
Qed.

Lemma dropwhile_app_keep (p : ascii -> bool) (a b : text) :
  dropwhile p a <> [] -> dropwhile p (a ++ b) = dropwhile p a ++ b.
Proof.
  induction a as [|c a IH]; simpl; [congruence|].
  destruct (p c); [exact IH | reflexivity].
Qed.

Lemma rstrip_app_all (a r : text) :
  forallb is_space r = true -> rstrip (a ++ r) = rstrip a.
Proof.
  intros H. unfold rstrip. rewrite rev_app_distr.
  rewrite dropwhile_app_all; [reflexivity|].
  rewrite forallb_forall in *. intros x Hx. apply H. now apply in_rev.
Qed.

Lemma blank_app (a b : text) :
  forallb is_space (a ++ b) = true <->
  forallb is_space a = true /\ forallb is_space b = true.
Proof. rewrite forallb_app. apply andb_true_iff. Qed.

(** White space around a text does not change what [strip] leaves. *)
Lemma strip_padding (l s r : text) :
  forallb is_space l = true -> forallb is_space r = true ->
  strip (l ++ s ++ r) = strip s.
Proof.
  intros Hl Hr. rewrite !strip_rstrip. rewrite dropwhile_app_all by exact Hl.
  destruct (dropwhile is_space s) as [|y t] eqn:E.
  - destruct (dropwhile_suffix is_space s) as [ws [Es Hws]].
    rewrite E, app_nil_r in Es. subst ws.
    rewrite dropwhile_all; [reflexivity|]. apply blank_app. auto.
  - rewrite dropwhile_app_keep by congruence. rewrite E.
    now apply rstrip_app_all.
Qed.

Lemma strip_nil_blank (s : text) : strip s = [] -> forallb is_space s = true.
Proof.
  intros E. destruct (strip_decompose s) as [l [r [Es [Hl Hr]]]].
  rewrite E in Es. rewrite Es. simpl. apply blank_app. auto.
Qed.

Lemma strip_first (s : text) (c : ascii) (t : text) :
  strip s = c :: t -> is_space c = false.
Proof.
  rewrite strip_rstrip. intros E.
  destruct (rstrip_prefix (dropwhile is_space s)) as [ws [E' _]].
  rewrite E in E'. simpl in E'. now apply dropwhile_head in E'.
Qed.

(** A text that is not blank has a first token. *)
Lemma nonblank_first_token (query : text) :
  strip query <> [] -> exists tok, first_token query tok.
Proof.
  intros Hne. destruct (strip_decompose query) as [l [r [Es [Hl Hr]]]].
  destruct (strip query) as [|c t] eqn:E; [congruence|].
  pose proof (strip_first _ E) as Hc.
  destruct (span (fun c => negb (is_space c)) (c :: t)) as [tok rest] eqn:S.
  pose proof S as S'. apply span_spec in S' as [Ec [Htok Hrest]].
  exists tok. exists l, (rest ++ r). repeat split.
  - rewrite Es, Ec. now rewrite <- !app_assoc.
  - exact Hl.
  - simpl in S. rewrite Hc in S. simpl in S.
    destruct (span _ t). injection S as <- _. discriminate.
  - exact Htok.
  - destruct rest as [|x rest]; simpl.
    + destruct r as [|x r]; simpl; [exact I|].
      simpl in Hr. now apply andb_true_iff in Hr as [Hr _].
    + now apply negb_false_iff in Hrest.
Qed.

(** The validator, case by case. *)
Lemma validate_cases (ord : set_order) (query : text) :
  (forallb is_space query = true /\
   _validate_query ord query = Raise (HTTPException 400 (T "Empty query"))) \/
  (exists tok,
      first_token query tok /\
      ((contains_forbidden query /\
        _validate_query ord query =
        Raise (HTTPException 403 (T "Forbidden SQL keyword"))) \/
       (~ contains_forbidden query /\
        _validate_query ord query = after_head ord (strip query) tok))).
Proof.
  destruct (strip query) as [|c t] eqn:E.
  - left. split; [now apply strip_nil_blank|].
    unfold _validate_query. now rewrite E.
  - right. destruct (@nonblank_first_token query) as [tok Ht]; [congruence|].
    exists tok. split; [exact Ht|].
    destruct (search _FORBIDDEN (strip query)) as [m|] eqn:S.
    + left. assert (contains_forbidden query) as Hf.
      { apply contains_forbidden_strip, forbidden_search. congruence. }
      split; [exact Hf|]. unfold _validate_query. rewrite E in *. now rewrite S.
    + right. assert (~ contains_forbidden query) as Hf.
      { intros H. apply contains_forbidden_strip, forbidden_search in H.
        congruence. }
      split; [exact Hf | rewrite <- E; now apply validate_after_head].
Qed.

Lemma after_head_outcomes (ord : set_order) (q tok : text) :
  after_head ord q tok = Return tt \/
  exists detail, after_head ord q tok = Raise (HTTPException 403 detail).
Proof.
  unfold after_head, verb_error.
  destruct (negb _); [right; eauto|].
  destruct (find _ _); [right; eauto|].
  destruct (text_eqb _ _); [|now left].
  destruct (search _ _); [|right; eauto].
  destruct (group _ _); [|right; eauto].
  destruct (negb _); [right; eauto | now left].
Qed.

(** X1. The validator either accepts or raises an HTTP error with status
    400 (empty query) or 403: indexing the first token never fails, because
    the text is known not to be blank by then. *)
Theorem validator_outcomes (ord : set_order) (query : text) :
  _validate_query ord query = Return tt \/
  _validate_query ord query = Raise (HTTPException 400 (T "Empty query")) \/
  exists detail, _validate_query ord query = Raise (HTTPException 403 detail).
Proof.
  destruct (validate_cases ord query) as [[_ E]|[tok [_ [[_ E]|[_ E]]]]].
  - right. left. exact E.
  - right. right. eauto.
  - rewrite E. destruct (after_head_outcomes ord (strip query) tok) as [H|H];
      [now left | right; right; exact H].
Qed.




Example keyword_inside_a_name :
  _validate_query insertion_order
    (T "select created_at, dropped from dbo.AppMeta") = Return tt.
Proof. reflexivity. Qed.

(** X3. The validator answers 400 exactly for the texts that are empty or
    all white space, and the detail is then "Empty query". *)
Theorem empty_query_iff_blank (ord : set_order) (query : text) :
  (exists detail, _validate_query ord query = Raise (HTTPException 400 detail))
  <-> forallb is_space query = true.
Proof.
  split.
  - intros [detail H].
    destruct (validate_cases ord query) as [[Hb _]|[tok [_ [[_ E]|[_ E]]]]].
    + exact Hb.
    + rewrite E in H. discriminate H.
    + rewrite E in H.
      destruct (after_head_outcomes ord (strip query) tok) as [E'|[d E']];
        rewrite E' in H; discriminate H.
  - intros H. exists (T "Empty query"). unfold _validate_query.
    now rewrite (strip_blank _ H).
Qed.

Lemma validate_strip (ord : set_order) (q1 q2 : text) :
  strip q1 = strip q2 -> _validate_query ord q1 = _validate_query ord q2.
Proof. intros E. unfold _validate_query. now rewrite E. Qed.

(** X4. White space before and after the query text does not change the
    verdict of the validator. *)
Theorem validator_ignores_padding (ord : set_order) (l query r : text) :
  forallb is_space l = true -> forallb is_space r = true ->
  _validate_query ord (l ++ query ++ r) = _validate_query ord query.
Proof. intros Hl Hr. apply validate_strip. now apply strip_padding. Qed.

Lemma validator_ignores_padding_witness :
  _validate_query insertion_order
    (T "  " ++ T "select * from dbo.Secret" ++ T " ") =
  _validate_query insertion_order (T "select * from dbo.Secret").
Proof.
  exact (@validator_ignores_padding insertion_order (T "  ")
           (T "select * from dbo.Secret") (T " ") eq_refl eq_refl).
Defined.

Lemma allowed_or_not (o : text) :
  not_allowed o = false -> In o allowed_names.
Proof.
  unfold not_allowed, allowed_names. intros H. apply in_or_app.
  apply andb_false_iff in H as [H|H]; apply negb_false_iff, mem_In in H; auto.
Qed.

(** What the object check leaves through. *)
Lemma object_check_passed (ord : set_order) (q : text) :
  set_iteration ord ->
  find not_allowed (ord (collected q)) = None ->
  forall ident, references q ident -> In (T "dbo." ++ ident) allowed_names.
Proof.
  intros Hord Hf ident Hr.
  assert (forall o, In o (collected q) -> In o allowed_names) as Hall.
  { intros o Ho. apply allowed_or_not. apply (find_none _ _ Hf).
    now apply (Hord (collected q)). }
  destruct (collected_complete Hr) as [H|[w [Hl H]]]; [now apply Hall|].
  apply Hall in H. now apply qualifier_not_allowed in H.
Qed.

(** X5. What acceptance guarantees: an accepted query holds no forbidden
    keyword as a whole word, its first token is one of the six verbs in
    some letter case, and every reference [dbo.ident] in it, wherever it
    stands, is in one of the allow-lists as written. *)
Theorem accepted_query (ord : set_order) (query : text) :
  set_iteration ord ->
  _validate_query ord query = Return tt ->
  ~ contains_forbidden query /\
  (exists tok, first_token query tok /\ In (lower tok) allowed_verbs) /\
  (forall ident, references query ident ->
                 In (T "dbo." ++ ident) allowed_names).
Proof.
  intros Hord H.
  destruct (validate_cases ord query) as [[_ E]|[tok [Ht [[_ E]|[Hf E]]]]];
    try (rewrite E in H; discriminate H).
  rewrite E in H. unfold after_head in H.
  destruct (mem (lower tok) allowed_verbs) eqn:Hv; [|discriminate H].
  cbn [negb] in H.
  destruct (find not_allowed (ord (collected (strip query)))) eqn:Hfind;
    [discriminate H|].
  split; [exact Hf|]. split.
  - exists tok. split; [exact Ht | now apply mem_In].
  - intros ident Hr. apply references_strip in Hr.
    now apply (object_check_passed Hord Hfind).
Qed.

Lemma accepted_query_witness :
  ~ contains_forbidden (T "update dbo.ItemaAyar set x = ? where tip = ?").
Proof.
  exact (proj1 (@accepted_query insertion_order
                  (T "update dbo.ItemaAyar set x = ? where tip = ?")
                  insertion_order_valid eq_refl)).
Defined.



(** ** The matcher finds only what the pattern matches *)

Lemma more_sound (A : Type) (k : cclass) (K : kont A) :
  forall aft bef g a,
    more k bef aft g K = Some a ->
    exists w post,
      aft = w ++ post /\ forallb (in_class k) w = true /\
      K (rev w ++ bef) post g = Some a.
Proof.
  induction aft as [|x aft IH]; intros bef g a; simpl.
  - intros H. exists [], []. auto.
  - destruct (in_class k x) eqn:Hx.
    + destruct (more k (x :: bef) aft g K) as [a'|] eqn:E.
      * intros H. injection H as ->.
        destruct (IH _ _ _ E) as [w [post [-> [Hw HK]]]].
        exists (x :: w), post. simpl. rewrite Hx, Hw.
        rewrite <- app_assoc. auto.
      * intros H. exists [], (x :: aft). auto.
    + intros H. exists [], (x :: aft). auto.
Qed.

Lemma run_sound (A : Type) (r : regex) :
  forall bef aft g (K : kont A) a,
    run r bef aft g K = Some a ->
    exists b a' g', matches r bef aft g b a' g' /\ K b a' g' = Some a.
Proof.
  induction r as [s| |k|r1 IH1 r2 IH2|r1 IH1 r2 IH2|n r IH];
    intros bef aft g K a; cbn [run].
  - rewrite lits_ci_prefix.
    destruct (ci_prefix s aft) as [[x post]|] eqn:E; [|discriminate].
    apply ci_prefix_sound in E as [-> E]. intros H.
    exists (rev x ++ bef), post, g. split; [now constructor | exact H].
  - destruct (at_boundary bef aft) eqn:B; [|discriminate]. intros H.
    exists bef, aft, g. split; [now constructor | exact H].
  - destruct aft as [|x aft]; [discriminate|].
    destruct (in_class k x) eqn:Hx; [|discriminate]. intros H.
    apply more_sound in H as [w [post [-> [Hw H]]]].
    exists (rev (x :: w) ++ bef), post, g. split.
    + apply (MPlus k bef (w := x :: w)); [discriminate|].
      simpl. now rewrite Hx.
    + simpl. now rewrite <- app_assoc.
  - intros H. apply IH1 in H as [b1 [a1 [g1 [M1 H]]]].
    apply IH2 in H as [b2 [a2 [g2 [M2 H]]]].
    exists b2, a2, g2. split; [econstructor; eassumption | exact H].
  - destruct (run r1 bef aft g K) as [a1|] eqn:E.
    + intros H. injection H as ->. apply IH1 in E as [b [a' [g' [M H]]]].
      exists b, a', g'. split; [now apply MAltL | exact H].
    + intros H. apply IH2 in H as [b [a' [g' [M H]]]].
      exists b, a', g'. split; [now apply MAltR | exact H].
  - intros H. apply IH in H as [b [a' [g' [M H]]]].
    eexists b, a', _. split; [now apply MGroup; exact M | exact H].
Qed.

Lemma search_from_found (r : regex) :
  forall aft bef m,
    search_from r bef aft = Some m ->
    exists pre post,
      aft = pre ++ post /\ match_here r (rev pre ++ bef) post = Some m.
Proof.
  induction aft as [|x aft IH]; intros bef m; simpl.
  - destruct (match_here r bef []) eqn:E; [|discriminate].
    intros H. injection H as ->. exists [], []. auto.
  - destruct (match_here r bef (x :: aft)) eqn:E.
    + intros H. injection H as ->. exists [], (x :: aft). auto.
    + intros H. apply IH in H as [pre [post [-> H]]].
      exists (x :: pre), post. simpl. rewrite <- app_assoc. auto.
Qed.

(** ** The target of EXEC *)

Ltac invert_matches :=
  repeat match goal with
         | H : matches (Seq _ _) _ _ _ _ _ _ |- _ => inversion H; subst; clear H
         | H : matches (Group _ _) _ _ _ _ _ _ |- _ => inversion H; subst; clear H
         | H : matches (Lit _) _ _ _ _ _ _ |- _ => inversion H; subst; clear H
         | H : matches (Plus _) _ _ _ _ _ _ |- _ => inversion H; subst; clear H
         | H : matches Boundary _ _ _ _ _ _ |- _ => inversion H; subst; clear H
         end.

Lemma exec_ref_here (bef aft : text) (m : rmatch) :
  match_here _EXEC_REF bef aft = Some m ->
  exists e ws d ident post,
    aft = e ++ ws ++ d ++ ident ++ post /\ lower e = T "exec" /\
    ws <> [] /\ forallb is_space ws = true /\
    lower d = T "dbo." /\ ident <> [] /\ forallb is_word ident = true /\
    word_before bef = false /\ word_after post = false /\
    group 1 (m_groups m) = Some (d ++ ident).
Proof.
  unfold match_here. intros H. apply run_sound in H.
  destruct H as [b [a' [g' [M H]]]]. injection H as <-.
  unfold _EXEC_REF in M. invert_matches.
  match goal with
  | B : at_boundary ?b0 (?e ++ ?ws ++ ?d ++ ?w ++ ?post) = true |- _ =>
      rename B into B1; exists e, ws, d, w, post;
      match goal with
      | H1 : lower e = _, H2 : lower d = _, H4 : at_boundary _ post = true,
        H5 : forallb (in_class CSpace) ws = true,
        H6 : forallb (in_class CWord) w = true |- _ =>
          change (lower e = T "exec") in H1;
          change (lower d = T "dbo.") in H2;
          change (forallb is_space ws = true) in H5;
          change (forallb is_word w = true) in H6;
          rename H1 into He, H2 into Hd, H4 into B2, H5 into Hws, H6 into Hw;
          assert (word_after e = true) as We
              by (rewrite <- word_after_lower, He; reflexivity);
          assert (word_before (rev w) = true) as Ww
              by (rewrite <- (app_nil_r (rev w));
                  apply word_before_last; assumption);
          rewrite boundary_left in B1 by exact We;
          rewrite boundary_right in B2 by exact Ww;
          repeat split; auto;
          [ now apply negb_true_iff
          | now apply negb_true_iff
          | cbn [m_groups group Nat.eqb]; f_equal;
            replace (rev w ++ rev d ++ rev ws ++ rev e ++ b0)
              with (rev (d ++ w) ++ rev ws ++ rev e ++ b0)
              by (rewrite rev_app_distr; now rewrite <- app_assoc);
            apply capture_text ]
      end
  end.
Qed.

Lemma exec_of_word_ended (proc x : text) : exec_of proc x -> word_ended x.
Proof.
  intros [e [ws [-> [He [_ [_ [ident Hq]]]]]]]. split.
  - destruct e as [|c e]; [discriminate He|]. simpl.
    injection He as Hc _. rewrite <- word_lower, Hc. reflexivity.
  - apply qualified_word_ended in Hq as [_ Hq].
    rewrite !rev_app_distr, <- app_assoc. rewrite word_before_app; [exact Hq|].
    destruct (rev proc); [discriminate Hq | discriminate].
Qed.

Lemma first_token_unique (query t1 t2 : text) :
  first_token query t1 -> first_token query t2 -> t1 = t2.
Proof.
  intros H1 H2. apply first_token_head in H1 as [_ H1].
  apply first_token_head in H2 as [_ H2]. congruence.
Qed.

(** X7. An accepted query whose first token is EXEC holds somewhere, as a
    whole word, [exec] in some letter case, white space, and a procedure
    name that is in the procedure allow-list exactly as the query writes
    it, the qualifier [dbo.] in lower case included. *)
Theorem accepted_exec_calls_allowed_procedure (ord : set_order)
    (query tok : text) :
  _validate_query ord query = Return tt ->
  first_token query tok -> lower tok = T "exec" ->
  exists proc, In proc _ALLOWED_PROCS /\ exec_call query proc.
Proof.
  intros H Ht Hx.
  destruct (validate_cases ord query) as [[_ E]|[tok' [Ht' [[_ E]|[Hf E]]]]];
    try (rewrite E in H; discriminate H).
  rewrite (first_token_unique Ht' Ht) in E. rewrite E in H.
  unfold after_head in H. rewrite Hx in H.
  destruct (negb _); [discriminate H|].
  destruct (find _ _); [discriminate H|].
  change (text_eqb (T "exec") (T "exec")) with true in H. cbn iota in H.
  destruct (search _EXEC_REF (strip query)) as [m|] eqn:S; [|discriminate H].
  destruct (group 1 (m_groups m)) as [proc|] eqn:G; [|discriminate H].
  destruct (mem proc _ALLOWED_PROCS) eqn:Hm; [|discriminate H].
  exists proc. split; [now apply mem_In|].
  apply (@occurs_strip (exec_of proc) query); [apply exec_of_word_ended|].
  unfold search in S. apply search_from_found in S as [pre [post0 [Es S]]].
  apply exec_ref_here in S.
  destruct S as [e [ws [d [ident [post [Ea [He [Hne [Hws [Hd [Hi [Hw [Hb [Ha G']]]]]]]]]]]]]].
  rewrite G in G'. injection G' as ->.
  exists pre, (e ++ ws ++ d ++ ident), post. repeat split.
  - rewrite Es, Ea. now rewrite <- !app_assoc.
  - exists e, ws. repeat split; auto. exists ident, d. auto.
  - now rewrite app_nil_r in Hb.
  - exact Ha.
Qed.

Lemma accepted_exec_calls_allowed_procedure_witness :
  exists proc,
    In proc _ALLOWED_PROCS /\
    exec_call (T "EXEC  dbo.sp_ItemaTipOzelAyar @tip = ?") proc.
Proof.
  refine (@accepted_exec_calls_allowed_procedure insertion_order
            (T "EXEC  dbo.sp_ItemaTipOzelAyar @tip = ?") (T "EXEC")
            eq_refl _ eq_refl).
  token_at (@nil ascii) (T "  dbo.sp_ItemaTipOzelAyar @tip = ?").
Defined.

(** ** The auth guard and its configuration *)

Lemma strip_idempotent (s : text) : strip (strip s) = strip s.
Proof.
  destruct (strip_decompose s) as [l [r [E [Hl Hr]]]].
  rewrite E at 2. symmetry. now apply strip_padding.
Qed.

Lemma strip_nonblank (s : text) :
  forallb is_space s = false -> strip s <> [].
Proof.
  intros H E. apply strip_nil_blank in E. congruence.
Qed.

(** X8. Reading a setting: an unset or empty variable gives the default;
    any other value is stripped of surrounding white space and the default
    is not used, so a value of white space only gives the empty text, not
    the default.  What is returned from a set variable has no white space
    left at either end. *)
Theorem env_lookup (env : environ) (name default : text) :
  match env name with
  | None => _env env name default = default
  | Some [] => _env env name default = default
  | Some v =>
      _env env name default = strip v /\
      strip (_env env name default) = _env env name default /\
      (forallb is_space v = true -> _env env name default = [])
  end.
Proof.
  unfold _env. destruct (env name) as [[|c v]|]; try reflexivity.
  split; [reflexivity|]. split; [apply strip_idempotent | apply strip_blank].
Qed.

(** X9. The decision of the auth guard: a request passes exactly when no
    secret is in effect or its token is, character for character, the
    configured secret with surrounding white space stripped; every other
    request is answered 401 "Unauthorized". *)
Theorem require_token_decision (env : environ) (x_token : option text) :
  (_require_token env x_token = Return tt <->
   _env env token_variable [] = [] \/
   x_token = Some (_env env token_variable [])) /\
  (_require_token env x_token = Return tt \/
   _require_token env x_token = Raise (HTTPException 401 (T "Unauthorized"))).
Proof.
  unfold _require_token. fold token_variable.
  destruct (_env env token_variable []) as [|e expected] eqn:E.
  - split; [tauto | now left].
  - destruct x_token as [[|c t]|].
    + split; [|now right]. split; [discriminate|].
      intros [H|H]; discriminate H.
    + destruct (text_eqb (c :: t) (e :: expected)) eqn:Eq.
      * apply text_eqb_eq in Eq. split; [|now left].
        split; [intros _; right; now rewrite Eq | reflexivity].
      * split; [|now right]. split; [discriminate|].
        intros [H|H]; [discriminate H|]. injection H as -> ->.
        rewrite (proj2 (text_eqb_eq _ _) eq_refl) in Eq. discriminate Eq.
    + split; [|now right]. split; [discriminate|].
      intros [H|H]; discriminate H.
Qed.

(** X10. The guard is open, that is, lets every request through whatever
    its token, exactly when the secret variable is unset, empty, or white
    space only. *)
Theorem open_mode_iff (env : environ) :
  (forall x_token, _require_token env x_token = Return tt) <->
  match env token_variable with
  | None => True
  | Some v => forallb is_space v = true
  end.
Proof.
  split.
  - intros H. specialize (H None). unfold _require_token, _env in H.
    fold token_variable in H.
    destruct (env token_variable) as [[|c v]|]; [reflexivity | | exact I].
    destruct (strip (c :: v)) eqn:E; [now apply strip_nil_blank | discriminate H].
  - intros H x_token. unfold _require_token, _env. fold token_variable.
    destruct (env token_variable) as [[|c v]|]; try reflexivity.
    now rewrite (strip_blank _ H).
Qed.

Example padded_secret :
  let env : environ :=
    fun name => if text_eqb name token_variable then Some (T " s3cret ") else None in
  _require_token env (Some (T "s3cret")) = Return tt /\
  _require_token env (Some (T " s3cret ")) =
    Raise (HTTPException 401 (T "Unauthorized")).
Proof. split; reflexivity. Qed.

(** ** The handler, call by call *)

Ltac unfold_handler :=
  unfold handle, sql, sql_body, bind, lift, try_finally, try_except, connect,
    close, emit, outcome, ret, raise.

(** X11. The pipeline stops at the first stage that rejects: the driver is
    called exactly for the requests that both the guard and the validator
    let through.  A rejected request gets the error of the stage that
    rejected it, the guard first; for one that passes the first call is
    [connect] with the configured connection string and a timeout of 10. *)
Theorem driver_called_iff_checks_pass (ord : set_order) (env : environ)
    (drv : driver) (req : SqlRequest) (x_token : option text) :
  (trace (fst (handle ord env drv req x_token)) <> [] <->
   passes_checks ord env req x_token) /\
  (forall e, _require_token env x_token = Raise e ->
             handle ord env drv req x_token = (Frame [] false, Raise e)) /\
  (forall e, _require_token env x_token = Return tt ->
             _validate_query ord (query req) = Raise e ->
             handle ord env drv req x_token = (Frame [] false, Raise e)) /\
  (passes_checks ord env req x_token ->
   exists ok calls,
     rev (trace (fst (handle ord env drv req x_token))) =
     EvConnect (_sql_conn_str env) 10 ok :: calls).
Proof.
  unfold passes_checks. unfold_handler.
  destruct (_require_token env x_token) as [[]|e1].
  2: { cbn. repeat split; try congruence. intros [H _]. discriminate H.
       intros [H _]. discriminate H. }
  destruct (_validate_query ord (query req)) as [[]|e2].
  2: { cbn. repeat split; try congruence. intros [_ H]. discriminate H.
       intros [_ H]. discriminate H. }
  split; [|split; [discriminate | split; [discriminate|]]].
  - split; [auto|]. intros _.
    destruct (on_connect drv (_sql_conn_str env) 10); [cbn; discriminate|].
    destruct (on_cursor drv);
      [cbn; destruct (on_close drv); cbn; discriminate|].
    destruct (on_execute drv _ _);
      [cbn; destruct (on_close drv); cbn; discriminate|].
    destruct (truthy (description drv));
      [destruct (on_fetchall drv) | destruct (on_commit drv)];
      cbn; destruct (on_close drv); cbn; discriminate.
  - intros _.
    destruct (on_connect drv (_sql_conn_str env) 10); [cbn; eauto|].
    destruct (on_cursor drv);
      [cbn; destruct (on_close drv); cbn; eauto|].
    destruct (on_execute drv _ _);
      [cbn; destruct (on_close drv); cbn; eauto|].
    destruct (truthy (description drv));
      [destruct (on_fetchall drv) | destruct (on_commit drv)];
      cbn; destruct (on_close drv); cbn; eauto.
Qed.



(** X13. When the database rejects the statement, the answer is 500 with
    the driver's message; nothing is fetched, nothing is committed, and the
    connection is closed. *)
Theorem execute_failure (ord : set_order) (env : environ) (drv : driver)
    (req : SqlRequest) (x_token : option text) (msg : text) :
  passes_checks ord env req x_token ->
  on_connect drv (_sql_conn_str env) 10 = None ->
  on_cursor drv = None ->
  on_execute drv (query req) (_adapt_params (query req) (params req)) =
    Some msg ->
  snd (handle ord env drv req x_token) = Raise (HTTPException 500 msg) /\
  ~ In EvFetchall (trace (fst (handle ord env drv req x_token))) /\
  ~ In EvCommit (trace (fst (handle ord env drv req x_token))) /\
  hd_error (trace (fst (handle ord env drv req x_token))) = Some EvClose.
Proof.
  intros [Ha Hv] Hc Hu He. unfold_handler. rewrite Ha, Hv, Hc, Hu, He. cbn.
  destruct (on_close drv); cbn; repeat split;
    intros [E|[E|[E|[E|[]]]]]; discriminate E.
Qed.

Lemma execute_failure_witness :
  snd (handle insertion_order open_env failing_driver
         (Request (T "delete from dbo.Snapshots where Id = ?") [VInt 7]) None) =
  Raise (HTTPException 500 (T "42S02 Invalid object name")).
Proof.
  exact (proj1 (@execute_failure insertion_order open_env failing_driver
                  (Request (T "delete from dbo.Snapshots where Id = ?") [VInt 7])
                  None (T "42S02 Invalid object name")
                  (conj eq_refl eq_refl) eq_refl eq_refl eq_refl)).
Defined.

(** X14. A mutation whose commit fails is not reported as done: the answer
    is 500 with the driver's message, and the connection is closed. *)
Theorem commit_failure (ord : set_order) (env : environ) (drv : driver)
    (req : SqlRequest) (x_token : option text) (msg : text) :
  executed ord env drv req x_token ->
  truthy (description drv) = false ->
  on_commit drv = Some msg ->
  snd (handle ord env drv req x_token) = Raise (HTTPException 500 msg) /\
  hd_error (trace (fst (handle ord env drv req x_token))) = Some EvClose.
Proof.
  intros H Hd Hc. rewrite (handle_executed H). rewrite Hd, Hc. cbn. auto.
Qed.

Lemma commit_failure_witness :
  snd (handle insertion_order open_env
         (Driver (fun _ _ => None) None (fun _ _ => None) None (inr [])
            (Some (T "40001 Deadlock")) (Some 1%Z) None)
         (Request (T "delete from dbo.Snapshots") []) None) =
  Raise (HTTPException 500 (T "40001 Deadlock")).
Proof.
  refine (proj1 (@commit_failure insertion_order open_env
                   (Driver (fun _ _ => None) None (fun _ _ => None) None
                      (inr []) (Some (T "40001 Deadlock")) (Some 1%Z) None)
                   (Request (T "delete from dbo.Snapshots") []) None
                   (T "40001 Deadlock") _ eq_refl eq_refl)).
  repeat split.
Defined.

(** X15. What [close] reports does not matter: the calls made and the
    answer are the same whether closing the connection raises or not. *)
Theorem close_outcome_ignored (ord : set_order) (env : environ) (drv : driver)
    (req : SqlRequest) (x_token : option text) (c : option text) :
  handle ord env (with_close drv c) req x_token =
  handle ord env drv req x_token.
Proof.
  unfold_handler. unfold with_close. cbn.
  destruct (_require_token env x_token) as [[]|e1]; [|reflexivity].
  destruct (_validate_query ord (query req)) as [[]|e2]; [|reflexivity].
  destruct (on_connect drv (_sql_conn_str env) 10); [reflexivity|].
  destruct (on_cursor drv);
    [cbn; destruct c, (on_close drv); reflexivity|].
  destruct (on_execute drv _ _);
    [cbn; destruct c, (on_close drv); reflexivity|].
  destruct (truthy (description drv));
    [destruct (on_fetchall drv) | destruct (on_commit drv)];
    cbn; destruct c, (on_close drv); reflexivity.
Qed.

(** X16. The statement is executed at most once, and what is executed is
    the query text as submitted, white space included, with the parameters
    as the adapter left them. *)
Theorem executes_submitted_text (ord : set_order) (env : environ)
    (drv : driver) (req : SqlRequest) (x_token : option text) :
  length (filter is_execute (trace (fst (handle ord env drv req x_token)))) <= 1 /\
  forall q ps,
    In (EvExecute q ps) (trace (fst (handle ord env drv req x_token))) ->
    q = query req /\ ps = _adapt_params (query req) (params req).
Proof.
  unfold_handler.
  destruct (_require_token env x_token) as [[]|e1];
    [|cbn; split; [lia | intros q ps []]].
  destruct (_validate_query ord (query req)) as [[]|e2];
    [|cbn; split; [lia | intros q ps []]].
  destruct (on_connect drv (_sql_conn_str env) 10);
    [cbn; split; [lia | intros q ps [E|[]]; discriminate E]|].
  destruct (on_cursor drv);
    [cbn; destruct (on_close drv); cbn;
     (split; [lia | intros q ps [E|[E|[E|[]]]]; discriminate E])|].
  assert (forall q ps a b,
             EvExecute a b = EvExecute q ps -> q = a /\ ps = b) as Inj
      by (intros q ps a b E; injection E as -> ->; auto).
  destruct (on_execute drv _ _);
    [cbn; destruct (on_close drv); cbn;
     (split; [lia|];
      intros q ps [E|[E|[E|[E|[]]]]]; try discriminate E; now apply Inj)|].
  destruct (truthy (description drv));
    [destruct (on_fetchall drv) | destruct (on_commit drv)];
    cbn; destruct (on_close drv); cbn;
    (split; [lia|];
     intros q ps [E|[E|[E|[E|[E|[]]]]]]; try discriminate E; now apply Inj).
Qed.

Lemma encode_value_not_bytes (v : value) : is_bytes (_encode_value v) = false.
Proof. destruct v; reflexivity. Qed.

(** X17. No cell of a returned row is a raw binary value: every cell of
    every row of a successful answer has been through the encoder. *)
Theorem response_has_no_bytes (ord : set_order) (env : environ) (drv : driver)
    (req : SqlRequest) (x_token : option text) (resp : response)
    (rows : list (list value)) :
  snd (handle ord env drv req x_token) = Return resp ->
  lookup (T "rows") resp = Some (JRows rows) ->
  forall row cell, In row rows -> In cell row -> is_bytes cell = false.
Proof.
  unfold_handler.
  destruct (_require_token env x_token) as [[]|e1]; [|discriminate].
  destruct (_validate_query ord (query req)) as [[]|e2]; [|discriminate].
  destruct (on_connect drv (_sql_conn_str env) 10); [discriminate|].
  destruct (on_cursor drv); [cbn; destruct (on_close drv); discriminate|].
  destruct (on_execute drv _ _);
    [cbn; destruct (on_close drv); discriminate|].
  destruct (truthy (description drv)).
  - destruct (on_fetchall drv) as [m|fetched];
      cbn; destruct (on_close drv); cbn; try discriminate;
      intros E; injection E as <-; cbn; intros L; injection L as <-;
      intros row cell Hr Hc;
      apply in_map_iff in Hr as [row0 [<- _]];
      apply in_map_iff in Hc as [cell0 [<- _]];
      apply encode_value_not_bytes.
  - destruct (on_commit drv);
      cbn; destruct (on_close drv); cbn; try discriminate;
      intros E; injection E as <-; cbn; intros L; injection L as <-;
      intros row cell [].
Qed.

Lemma response_has_no_bytes_witness :
  is_bytes (VStr (T "QQ==")) = false.
Proof.
  exact (@response_has_no_bytes insertion_order open_env sample_driver
           sample_request None _ _ eq_refl eq_refl
           [VStr (T "r1"); VStr (T "QQ==")] (VStr (T "QQ=="))
           (or_introl eq_refl) (or_intror (or_introl eq_refl))).
Defined.

Lemma guard_raises (env : environ) (x_token : option text) (e : exn) :
  _require_token env x_token = Raise e ->
  e = HTTPException 401 (T "Unauthorized").
Proof.
  unfold _require_token.
  destruct (_env env _ _) as [|x expected]; [discriminate|].
  destruct x_token as [[|c given]|]; try (intros H; now injection H).
  destruct (text_eqb _ _); [discriminate | intros H; now injection H].
Qed.

Lemma validator_raises (ord : set_order) (query : text) (e : exn) :
  _validate_query ord query = Raise e ->
  e = HTTPException 400 (T "Empty query") \/
  exists detail, e = HTTPException 403 detail.
Proof.
  destruct (validate_cases ord query) as [[_ E]|[tok [_ [[_ E]|[_ E]]]]];
    rewrite E.
  - intros H. injection H as <-. now left.
  - intros H. injection H as <-. right. eauto.
  - destruct (after_head_outcomes ord (strip query) tok) as [H|[d H]];
      rewrite H; [discriminate|].
    intros H'. injection H' as <-. right. eauto.
Qed.

(** X18. Every failure of the endpoint is an HTTP error with status 400,
    401, 403 or 500; no other exception leaves the handler. *)
Theorem failure_statuses (ord : set_order) (env : environ) (drv : driver)
    (req : SqlRequest) (x_token : option text) (e : exn) :
  snd (handle ord env drv req x_token) = Raise e ->
  exists status detail,
    e = HTTPException status detail /\
    In status [400; 401; 403; 500]%Z.
Proof.
  unfold_handler.
  destruct (_require_token env x_token) as [[]|e1] eqn:Ea.
  2: { cbn. intros H. injection H as <-.
       apply guard_raises in Ea as ->.
       exists 401%Z, (T "Unauthorized"). split; [reflexivity | simpl; tauto]. }
  destruct (_validate_query ord (query req)) as [[]|e2] eqn:Ev.
  2: { cbn. intros H. injection H as <-.
       destruct (validator_raises _ _ Ev) as [-> | [d ->]].
       - exists 400%Z, (T "Empty query"). split; [reflexivity | simpl; tauto].
       - exists 403%Z, d. split; [reflexivity | simpl; tauto]. }
  assert (forall m : text,
             exists status detail,
               HTTPException 500 m = HTTPException status detail /\
               In status [400; 401; 403; 500]%Z) as Five
      by (intros m; exists 500%Z, m; split; [reflexivity | simpl; tauto]).
  destruct (on_connect drv (_sql_conn_str env) 10);
    [cbn; intros H; injection H as <-; apply Five|].
  destruct (on_cursor drv);
    [cbn; destruct (on_close drv); cbn; intros H; injection H as <-; apply Five|].
  destruct (on_execute drv _ _);
    [cbn; destruct (on_close drv); cbn; intros H; injection H as <-; apply Five|].
  destruct (truthy (description drv));
    [destruct (on_fetchall drv) | destruct (on_commit drv)];
    cbn; destruct (on_close drv); cbn; intros H; try discriminate H;
    injection H as <-; apply Five.
Qed.

Lemma failure_statuses_witness :
  exists status detail,
    HTTPException 403 (T "Forbidden SQL keyword") = HTTPException status detail /\
    In status [400; 401; 403; 500]%Z.
Proof.
  exact (@failure_statuses insertion_order open_env idle_driver
           (Request (T "drop table dbo.AppMeta") []) None _ eq_refl).
Defined.

(** ** More on base64 and the adapter *)

Lemma encode_length (n : nat) :
  forall data,
    length data <= n ->
    length (Base64.b64encode data) = 4 * ((length data + 2) / 3).
Proof.
  induction n as [|n IH]; intros data L.
  - destruct data; [reflexivity | simpl in L; lia].
  - destruct data as [|a [|b [|c rest]]]; try reflexivity.
    cbn [Base64.b64encode]. unfold Base64.enc3. cbn [app length].
    rewrite IH by (simpl in L; lia).
    replace (S (S (S (length rest))) + 2) with (length rest + 2 + 1 * 3) by lia.
    rewrite Nat.div_add by lia. lia.
Qed.

(** X19. The result encoder loses nothing of a binary value: two payloads
    with the same encoding are the same payload.  What it returns for a
    payload of [n] bytes is a text of [4 * ceil(n / 3)] ASCII characters. *)
Theorem encoded_payload (a b : list byte) :
  (_encode_value (VBytes a) = _encode_value (VBytes b) -> a = b) /\
  exists s,
    _encode_value (VBytes a) = VStr s /\
    forallb Base64.is_ascii s = true /\
    length s = 4 * ((length a + 2) / 3).
Proof.
  split.
  - cbn [_encode_value]. intros E. injection E as E.
    apply (f_equal Base64.b64decode) in E.
    rewrite !decode_encode in E. now injection E.
  - exists (Base64.b64encode a). split; [reflexivity|]. split.
    + apply (encode_is_ascii _ _ (le_n _)).
    + apply (@encode_length _ _ (le_n _)).
Qed.

Lemma alphabet_is_ascii (c : ascii) :
  in_alphabet c = true -> Base64.is_ascii c = true.
Proof.
  intros H.
  assert ((negb (in_alphabet c) || Base64.is_ascii c)%bool = true) as H'
      by (revert c H; intros c _; revert c; apply for_all_chars;
          vm_compute; reflexivity).
  rewrite H in H'. exact H'.
Qed.

Lemma step_alphabet (c : ascii) (rest : text) (quad_pos : nat) (leftchar : N)
    (pads : nat) (out : list byte) :
  in_alphabet c = true ->
  Base64.a2b_base64 (c :: rest) quad_pos leftchar pads out =
  match quad_pos with
  | 0 => Base64.a2b_base64 rest 1 (Base64.a2b c) 0 out
  | 1 =>
      Base64.a2b_base64 rest 2 (N.land (Base64.a2b c) 15) 0
        (Base64.to_byte
           (N.lor (N.shiftl leftchar 2) (N.shiftr (Base64.a2b c) 4)) :: out)
  | 2 =>
      Base64.a2b_base64 rest 3 (N.land (Base64.a2b c) 3) 0
        (Base64.to_byte
           (N.lor (N.shiftl leftchar 4) (N.shiftr (Base64.a2b c) 2)) :: out)
  | _ =>
      Base64.a2b_base64 rest 0 0 0
        (Base64.to_byte (N.lor (N.shiftl leftchar 6) (Base64.a2b c)) :: out)
  end.
Proof.
  unfold in_alphabet. intros H. cbn [Base64.a2b_base64].
  destruct (ascii_dec c Base64.pad) as [->|_]; [discriminate H|].
  apply N.ltb_lt in H.
  assert (N.leb 64 (Base64.a2b c) = false) as -> by (apply N.leb_gt; exact H).
  reflexivity.
Qed.

(** A text of [4 * n] characters of the alphabet decodes, to [3 * n]
    bytes. *)
Lemma decode_quads (n : nat) :
  forall s out,
    length s = 4 * n -> forallb in_alphabet s = true ->
    exists b,
      Base64.a2b_base64 s 0 0 0 out = Some (rev out ++ b) /\
      length b = 3 * n.
Proof.
  induction n as [|n IH]; intros s out L H.
  - destruct s; [|discriminate L]. exists []. simpl. now rewrite app_nil_r.
  - destruct s as [|c1 [|c2 [|c3 [|c4 rest]]]]; try (simpl in L; lia).
    cbn [forallb] in H.
    apply andb_true_iff in H as [H1 H].
    apply andb_true_iff in H as [H2 H].
    apply andb_true_iff in H as [H3 H].
    apply andb_true_iff in H as [H4 H].
    rewrite (@step_alphabet _ _ _ _ _ _ H1), (@step_alphabet _ _ _ _ _ _ H2),
      (@step_alphabet _ _ _ _ _ _ H3), (@step_alphabet _ _ _ _ _ _ H4).
    match goal with
    | |- context [Base64.a2b_base64 rest 0 0 0 ?o] =>
        destruct (IH rest o) as [b [E Lb]]; [simpl in L; lia | exact H |]
    end.
    rewrite E. cbn [rev]. rewrite <- !app_assoc. cbn [app].
    eexists. split; [reflexivity|]. simpl. lia.
Qed.

(** X20. In a recognized insert, a string parameter that is made of
    characters of the base64 alphabet only and whose length is a multiple
    of four is always replaced by bytes, three for every four characters,
    whether or not it was meant as a binary payload; the empty string
    becomes the empty payload. *)
Theorem alphabet_text_becomes_bytes (query : text) (params : list value)
    (i : nat) (s : text) (n : nat) :
  recognized query ->
  nth_error params i = Some (VStr s) ->
  forallb in_alphabet s = true -> length s = 4 * n ->
  exists b,
    length b = 3 * n /\
    nth_error (_adapt_params query params) i = Some (VBytes b).
Proof.
  intros Hr Hp Ha L. rewrite adapt_params_unfold.
  apply contains_iff in Hr. rewrite Hr.
  destruct (@decode_quads n s [] L Ha) as [b [E Lb]].
  exists b. split; [exact Lb|].
  rewrite nth_error_map, Hp. cbn [option_map adapt_one].
  unfold Base64.b64decode.
  assert (forallb Base64.is_ascii s = true) as ->.
  { rewrite forallb_forall in *. intros c Hc. apply alphabet_is_ascii. auto. }
  now rewrite E.
Qed.

Lemma alphabet_text_becomes_bytes_witness :
  exists b,
    length b = 3 * 2 /\
    nth_error
      (_adapt_params (T "insert into dbo.NoteRules (Title) values (?)")
         [VStr (T "TestNote")]) 0 = Some (VBytes b).
Proof.
  refine (@alphabet_text_becomes_bytes
            (T "insert into dbo.NoteRules (Title) values (?)")
            [VStr (T "TestNote")] 0 (T "TestNote") 2 _ eq_refl eq_refl eq_refl).
  exists [], (T " (title) values (?)"). reflexivity.
Defined.

Example empty_string_becomes_empty_payload :
  _adapt_params (T "insert into dbo.NoteRules (Title) values (?)") [VStr []] =
  [VBytes []].
Proof. reflexivity. Qed.

Lemma adapt_one_idempotent (v : value) : adapt_one (adapt_one v) = adapt_one v.
Proof.
  destruct v as [| | |s| |]; try reflexivity. simpl.
  destruct (Base64.b64decode s) eqn:E; [reflexivity|]. simpl. now rewrite E.
Qed.

(** X21. For every query the adapter keeps the number and the order of the
    parameters, and adapting twice is the same as adapting once. *)
Theorem adapt_params_stable (query : text) (params : list value) :
  length (_adapt_params query params) = length params /\
  _adapt_params query (_adapt_params query params) =
  _adapt_params query params.
Proof.
  rewrite !adapt_params_unfold.
  destruct (contains noterules_insert (lower query)); [|auto].
  split; [apply length_map|].
  rewrite map_map. apply map_ext. apply adapt_one_idempotent.
Qed.

(** ** The manual save of the form *)

Lemma placeholders_app (a b : text) :
  placeholders (a ++ b) = placeholders a + placeholders b.
Proof. apply count_occ_app. Qed.

Lemma placeholders_join (sep : text) (parts : list text) (k : nat) :
  placeholders sep = 0 ->
  (forall p, In p parts -> placeholders p = k) ->
  placeholders (join sep parts) = k * length parts.
Proof.
  intros Hs. induction parts as [|p rest IH]; intros H;
    [change (length (@nil text)) with 0; now rewrite Nat.mul_0_r|].
  destruct rest as [|q rest].
  - change (join sep [p]) with p. rewrite (H p (or_introl eq_refl)).
    change (length [p]) with 1. lia.
  - change (join sep (p :: q :: rest)) with (p ++ sep ++ join sep (q :: rest)).
    rewrite !placeholders_app, Hs, IH by (intros x Hx; apply H; now right).
    rewrite (H p (or_introl eq_refl)).
    change (length (p :: q :: rest)) with (S (length (q :: rest))). lia.
Qed.

Lemma columns_but_In (drop : text) (columns : list text) (c : text) :
  In c (columns_but drop columns) -> In c columns.
Proof. unfold columns_but. intros H. now apply filter_In in H as [H _]. Qed.

Lemma save_sql_placeholders (cols set_cols : list text) :
  (forall c, In c cols -> placeholders c = 0) ->
  (forall c, In c set_cols -> placeholders c = 0) ->
  placeholders (save_sql cols set_cols) = 2 + length set_cols + length cols.
Proof.
  intros Hc Hs. unfold save_sql. cbv zeta.
  rewrite !placeholders_app.
  rewrite (@placeholders_join (T ", ") (map (fun c => T "[" ++ c ++ T "] = ?") set_cols) 1);
    [|reflexivity|].
  2: { intros p Hp. apply in_map_iff in Hp as [c [<- Hin]].
       rewrite !placeholders_app, (Hs c Hin). reflexivity. }
  rewrite (@placeholders_join (T ", ") (map (fun c => T "[" ++ c ++ T "]") cols) 0);
    [|reflexivity|].
  2: { intros p Hp. apply in_map_iff in Hp as [c [<- Hin]].
       rewrite !placeholders_app, (Hc c Hin). reflexivity. }
  rewrite (@placeholders_join (T ", ") (repeat (T "?") (length cols)) 1);
    [|reflexivity|].
  2: { intros p Hp. apply repeat_spec in Hp. now subst. }
  rewrite !length_map, repeat_length.
  change (placeholders nl) with 0. change (placeholders indent8) with 0.
  change (placeholders indent12) with 0.
  repeat match goal with
         | |- context [placeholders (T ?s)] =>
             let n := eval vm_compute in (placeholders (T s)) in
             change (placeholders (T s)) with n
         end.
  unfold text in *. lia.
Qed.

(** X22. Whenever the manual save executes its statement, the statement
    has as many [?] placeholders as parameters are passed with it, provided
    no column name holds a question mark: the parameters line up with the
    placeholders whatever the column list and the values are. *)
Theorem save_parameters_line_up (ITEMA_COLUMNS : list text)
    (upper : text -> text) (conn : driver) (values : text -> option text)
    (sql : text) (ps : list value) :
  (forall c, In c ITEMA_COLUMNS -> placeholders c = 0) ->
  In (EvExecute sql ps)
     (fst (_save_manual_settings ITEMA_COLUMNS upper conn values)) ->
  placeholders sql = length ps.
Proof.
  intros Hcols. unfold _save_manual_settings. cbv zeta.
  set (cols := columns_but (T "sira_no") ITEMA_COLUMNS).
  set (set_cols := columns_but (T "tip") cols).
  assert (forall a b,
             placeholders (save_sql cols set_cols) =
             length ([VStr a] ++ map (get_or_none values) set_cols
                     ++ [VStr b] ++ map (get_or_none values) cols)) as Count.
  { intros a b. rewrite save_sql_placeholders.
    - rewrite !length_app, !length_map. simpl. lia.
    - intros c Hc. apply Hcols. now apply columns_but_In in Hc.
    - intros c Hc. apply Hcols.
      apply columns_but_In in Hc. now apply columns_but_In in Hc. }
  destruct (upper _) as [|t tip]; [intros []|].
  destruct (on_cursor conn); [intros [E|[]]; discriminate E|].
  destruct (on_execute conn _ _).
  - intros [E|[E|[]]]; [|discriminate E]. injection E as <- <-. apply Count.
  - destruct (on_commit conn);
      (intros [E|[E|[E|[]]]]; try discriminate E; injection E as <- <-;
       apply Count).
Qed.

Lemma save_parameters_line_up_witness :
  placeholders
    (save_sql [T "tip"; T "tarak"; T "atki"] [T "tarak"; T "atki"]) = 7.
Proof.
  refine (@save_parameters_line_up
            [T "sira_no"; T "tip"; T "tarak"; T "atki"] (fun s => s)
            (Driver (fun _ _ => None) None (fun _ _ => None) None (inr [])
               None None None)
            (fun c => if text_eqb c (T "tip") then Some (T "A1") else None)
            _ _ _ (or_intror (or_introl eq_refl))).
  intros c [<-|[<-|[<-|[<-|[]]]]]; reflexivity.
Defined.

(** X23. The statement the manual save composes does not pass the
    gateway's validator: its first token is IF, so [_validate_query]
    answers 403 for it whatever the column list is. *)
Theorem save_statement_rejected (ord : set_order) (cols set_cols : list text) :
  exists detail,
    _validate_query ord (save_sql cols set_cols) =
    Raise (HTTPException 403 detail).
Proof.
  assert (first_token (save_sql cols set_cols) (T "IF")) as Ht.
  { exists (nl ++ indent8). eexists.
    split; [|split; [reflexivity|split; [discriminate|split; [reflexivity|]]]].
    - unfold save_sql. cbv zeta.
      change (T "IF EXISTS (SELECT 1 FROM ")
        with (T "IF" ++ T " EXISTS (SELECT 1 FROM ").
      rewrite <- !app_assoc. reflexivity.
    - reflexivity. }
  destruct (validate_cases ord (save_sql cols set_cols))
    as [[Hb _]|[tok [Ht' [[_ E]|[_ E]]]]].
  - apply first_token_head in Ht as [Hne _].
    now rewrite (strip_blank _ Hb) in Hne.
  - eauto.
  - rewrite (first_token_unique Ht' Ht) in E. rewrite E.
    unfold after_head. change (mem (lower (T "IF")) allowed_verbs) with false.
    cbn [negb]. unfold verb_error. eauto.
Qed.

(** X24. A save without a type code touches nothing: when the form's
    [tip] value is missing or only white space, the manual save raises
    [ValueError] before any call is made on the connection. *)
Theorem blank_type_code_stops_save (ITEMA_COLUMNS : list text)
    (upper : text -> text) (conn : driver) (values : text -> option text) :
  upper [] = [] ->
  match values (T "tip") with
  | Some v => forallb is_space v = true
  | None => True
  end ->
  _save_manual_settings ITEMA_COLUMNS upper conn values = ([], inl ValueError).
Proof.
  intros Hu Hv. unfold _save_manual_settings. cbv zeta.
  replace (strip match values (T "tip") with
                 | Some (x :: v) => x :: v
                 | _ => []
                 end) with (@nil ascii); [now rewrite Hu|].
  destruct (values (T "tip")) as [[|x v]|]; try reflexivity.
  symmetry. now apply strip_blank.
Qed.

Lemma blank_type_code_stops_save_witness :
  _save_manual_settings [T "tip"; T "tarak"] (fun s => s) idle_driver
    (fun c => if text_eqb c (T "tip") then Some (T "  ") else None) =
  ([], inl ValueError).
Proof.
  apply (@blank_type_code_stops_save [T "tip"; T "tarak"] (fun s => s)
           idle_driver
           (fun c => if text_eqb c (T "tip") then Some (T "  ") else None));
    reflexivity.
Defined.
